(** * scaled-be, tier 4: circuit breaker and batching write queue

    A shallow embedding of [cb.ts] (class [CircuitBreaker]) and of
    [writequeue.ts] (class [WriteQueue]), with the properties of the two
    components stated and proved over the embedding. *)

From stdpp Require Import base list strings pretty.
From Stdlib Require Import ZArith Lia.

(** ** JavaScript values shared by the two components *)

(** A thrown value.  [err_name] is the constructor name ([Error],
    [TypeError], ...), [err_code] the optional [code] property that the
    database driver sets (the routes test [err.code === "23505"]). *)
Record JsError := mkJsError {
  err_name : string;
  err_message : string;
  err_code : option string
}.

(** [new Error(msg)] *)
Definition new_Error (msg : string) : JsError :=
  {| err_name := "Error"; err_message := msg; err_code := None |}.

(** How an awaited call ends: with a value or with a thrown error. *)
Inductive completion (T : Type) : Type :=
  | Returned (v : T)
  | Threw (e : JsError).
Arguments Returned {T} v.
Arguments Threw {T} e.

(** ** The circuit breaker *)

Module Breaker.

Local Open Scope Z_scope.

Inductive CircuitState := CLOSED | OPEN | HALF_OPEN.

#[global] Instance CircuitState_eq_dec : EqDecision CircuitState.
Proof. solve_decision. Defined.

(** The fields of the class: the four constructor parameters and the four
    private mutable fields. *)
Record CircuitBreaker := mkCircuitBreaker {
  name : string;
  threshold : Z;
  timeout : Z;
  successThreshold : Z;
  state : CircuitState;
  failures : Z;
  successCount : Z;
  lastFailureTime : Z
}.

(** [new CircuitBreaker(name, threshold = 5, timeout = 30_000,
    successThreshold = 3)]; an omitted argument is [None]. *)
Definition new_CircuitBreaker (name : string)
    (threshold timeout successThreshold : option Z) : CircuitBreaker :=
  {| name := name;
     threshold := default 5 threshold;
     timeout := default 30000 timeout;
     successThreshold := default 3 successThreshold;
     state := CLOSED;
     failures := 0;
     successCount := 0;
     lastFailureTime := 0 |}.

Definition dbCircuit : CircuitBreaker :=
  new_CircuitBreaker "postgres" (Some 3) (Some 20000) (Some 2).
Definition redisCircuit : CircuitBreaker :=
  new_CircuitBreaker "redis" (Some 5) (Some 30000) (Some 3).

(** Field assignments. *)
Definition set_state (s : CircuitState) (b : CircuitBreaker) :=
  mkCircuitBreaker (name b) (threshold b) (timeout b) (successThreshold b)
    s (failures b) (successCount b) (lastFailureTime b).
Definition set_failures (n : Z) (b : CircuitBreaker) :=
  mkCircuitBreaker (name b) (threshold b) (timeout b) (successThreshold b)
    (state b) n (successCount b) (lastFailureTime b).
Definition set_successCount (n : Z) (b : CircuitBreaker) :=
  mkCircuitBreaker (name b) (threshold b) (timeout b) (successThreshold b)
    (state b) (failures b) n (lastFailureTime b).
Definition set_lastFailureTime (t : Z) (b : CircuitBreaker) :=
  mkCircuitBreaker (name b) (threshold b) (timeout b) (successThreshold b)
    (state b) (failures b) (successCount b) t.

(** What a method of the breaker does to the outside, in order: the two
    logger calls, [this.emit], and the calls of the two closures handed to
    [execute]. *)
Inductive effect :=
  | logger_info (msg : string)
  | logger_error (msg : string)
  | emit (ev : string)
  | call_fn
  | call_fallback.

#[global] Instance effect_eq_dec : EqDecision effect.
Proof. solve_decision. Defined.

(** Number of invocations of the guarded function recorded in a trace. *)
Definition is_call_fn (e : effect) : bool :=
  match e with call_fn => true | _ => false end.
Definition fn_calls (tr : list effect) : nat :=
  length (List.filter is_call_fn tr).

Section Methods.

(** The world the closures act on, and the clock [Date.now()] reads. *)
Context {W : Type} (Date_now : W → Z).

(** The breaker instance, the outside world, and what has been done to
    the outside so far. *)
Record Sys := mkSys {
  this : CircuitBreaker;
  world : W;
  trace : list effect
}.

(** Methods are state transformers over [Sys].  A call of [execute] is
    taken as a whole: the guarded function acts on the world while it is
    awaited, and no other call of the breaker runs in between.  What
    [onSuccess] and [onFailure] do is stated on the state they find. *)
Definition M (A : Type) : Type := Sys → A * Sys.

Definition ret {A} (a : A) : M A := λ s, (a, s).
Definition bind {A B} (m : M A) (k : A → M B) : M B :=
  λ s, let (a, s') := m s in k a s'.

Notation "'let!' x := m 'in' k" := (bind m (λ x, k))
  (at level 10, x name, m at level 100, k at level 200).
Notation "m >> k" := (bind m (λ _, k))
  (at level 100, k at level 200, right associativity).

Definition get_this : M CircuitBreaker := λ s, (this s, s).
Definition assign (f : CircuitBreaker → CircuitBreaker) : M unit :=
  λ s, (tt, mkSys (f (this s)) (world s) (trace s)).
Definition perform (e : effect) : M unit :=
  λ s, (tt, mkSys (this s) (world s) (trace s ++ [e])).
Definition now : M Z := λ s, (Date_now (world s), s).

(** Calling a closure: it runs on the world, and the call is recorded. *)
Definition invoke {T} (tag : effect) (f : W → completion T * W)
  : M (completion T) :=
  λ s, let (r, w') := f (world s) in
       (r, mkSys (this s) w' (trace s ++ [tag])).

Definition onSuccess : M unit :=
  assign (set_failures 0) >>
  let! b := get_this in
  if decide (state b = HALF_OPEN) then
    assign (set_successCount (successCount b + 1)) >>
    let! b := get_this in
    if bool_decide (successThreshold b ≤ successCount b) then
      assign (set_state CLOSED) >>
      assign (set_successCount 0) >>
      perform (logger_info ("Circuit " +:+ name b +:+ ": CLOSED — recovered"))
    else ret tt
  else ret tt.

Definition onFailure : M unit :=
  let! b := get_this in
  assign (set_failures (failures b + 1)) >>
  let! t := now in
  assign (set_lastFailureTime t) >>
  let! b := get_this in
  if bool_decide (threshold b ≤ failures b) || bool_decide (state b = HALF_OPEN) then
    assign (set_state OPEN) >>
    assign (set_successCount 0) >>
    perform (logger_error ("Circuit " +:+ name b +:+ ": OPEN — failing fast")) >>
    perform (emit "open")
  else ret tt.

Definition getState : M CircuitState :=
  let! b := get_this in ret (state b).

Section Execute.
Context {T : Type}.

(** The [if (this.state === "OPEN")] block of [execute]: [Some r] when
    it leaves the method with [r], [None] when control falls through to
    the [try]. *)
Definition gate (fallback : option (W → completion T * W))
  : M (option (completion T)) :=
  let! b := get_this in
  if decide (state b = OPEN) then
    let! t := now in
    if bool_decide (timeout b < t - lastFailureTime b) then
      assign (set_state HALF_OPEN) >>
      perform (logger_info ("Circuit " +:+ name b +:+ ": HALF_OPEN — testing")) >>
      ret None
    else
      match fallback with
      | Some fb => let! r := invoke call_fallback fb in ret (Some r)
      | None => ret (Some (Threw (new_Error ("Circuit " +:+ name b +:+ " is OPEN"))))
      end
  else ret None.

(** The [try { await fn() ... } catch (err) { ... }] block. *)
Definition attempt (fn : W → completion T * W)
    (fallback : option (W → completion T * W)) : M (completion T) :=
  let! r := invoke call_fn fn in
  match r with
  | Returned result => onSuccess >> ret (Returned result)
  | Threw err =>
      onFailure >>
      match fallback with
      | Some fb => invoke call_fallback fb
      | None => ret (Threw err)
      end
  end.

Definition execute (fn : W → completion T * W)
    (fallback : option (W → completion T * W)) : M (completion T) :=
  let! g := gate fallback in
  match g with
  | Some r => ret r
  | None => attempt fn fallback
  end.

(** A run of [execute] calls, one after the other. *)
Fixpoint execute_all (calls : list ((W → completion T * W) * option (W → completion T * W)))
  : M (list (completion T)) :=
  match calls with
  | [] => ret []
  | (fn, fallback) :: rest =>
      let! r := execute fn fallback in
      let! rs := execute_all rest in
      ret (r :: rs)
  end.
End Execute.

(** [k] successive calls of [getState]. *)
Fixpoint poll (k : nat) : M (list CircuitState) :=
  match k with
  | O => ret []
  | S k => let! st := getState in let! sts := poll k in ret (st :: sts)
  end.

End Methods.

Arguments Sys W : clear implicits.
Arguments mkSys {W} this world trace.

End Breaker.

(** ** The batching write queue *)

Module Queue.

(** [User] of the shared types package. *)
Record User := mkUser {
  User_id : Z;
  User_name : string;
  User_email : string;
  User_created_at : string
}.

(** [Partial<User>]: every field may be absent. *)
Record PartialUser := mkPartialUser {
  id : option Z;
  name : option string;
  email : option string;
  created_at : option string
}.

(** The string literal type ["create" | "update" | "delete"]. *)
Inductive JobType := create | update | delete.

#[global] Instance JobType_eq_dec : EqDecision JobType.
Proof. solve_decision. Defined.

(** The promise made by [enqueue] for one job.  [resolve(undefined)]
    fulfils with [None]. *)
Inductive PromiseState :=
  | Pending
  | Fulfilled (val : option User)
  | Rejected (err : JsError).

(** [WriteJob].  The fields [resolve] and [reject] of the source are the
    two resolving functions of one promise; [promise] is the place of that
    promise in the store, and [resolve] and [reject] below act on it. *)
Record WriteJob := mkWriteJob {
  type : JobType;
  payload : PartialUser;
  timestamp : Z;
  promise : nat
}.

(** Settling a promise: only a pending promise changes, later calls of its
    resolving functions are ignored. *)
Definition settle (p : nat) (st : PromiseState) (heap : list PromiseState)
  : list PromiseState :=
  match heap !! p with
  | Some Pending => <[p := st]> heap
  | _ => heap
  end.

Definition resolve (job : WriteJob) (val : option User) :=
  settle (promise job) (Fulfilled val).
Definition reject (job : WriteJob) (err : JsError) :=
  settle (promise job) (Rejected err).

(** The private fields of the class. *)
Record WriteQueue := mkWriteQueue {
  queue : list WriteJob;
  flushing : bool
}.

Definition BATCH_SIZE : nat := 100.
Definition FLUSH_INTERVAL_MS : Z := 50.

(** The local variables of a [flush] that is suspended at its [await]. *)
Record Frame := mkFrame {
  batch : list WriteJob;
  creates : list WriteJob
}.

(** The queue object together with what it shares with the rest of the
    process: the promises it made, the interval timers it registered, the
    suspended [flush] if there is one, and the queries it sent to
    [DB_SHARDS[0]]. *)
Record Runtime := mkRuntime {
  this : WriteQueue;
  promises : list PromiseState;
  timers : list Z;
  awaiting : option Frame;
  submitted : list (string * list (option string))
}.

(** [new WriteQueue()]: empty queue, and [setInterval] registers the
    timer. *)
Definition new_WriteQueue : Runtime :=
  {| this := {| queue := []; flushing := false |};
     promises := [];
     timers := [FLUSH_INTERVAL_MS];
     awaiting := None;
     submitted := [] |}.

(** [enqueue(job)]: makes the promise, pushes the job with the promise's
    resolving functions, returns the promise. *)
Definition enqueue (ty : JobType) (pl : PartialUser) (ts : Z) (rt : Runtime)
  : nat * Runtime :=
  let p := length (promises rt) in
  (p, {| this := {| queue := queue (this rt) ++ [mkWriteJob ty pl ts p];
                    flushing := flushing (this rt) |};
         promises := promises rt ++ [Pending];
         timers := timers rt;
         awaiting := awaiting rt;
         submitted := submitted rt |}).

(** [list.forEach((x, i) => ...)] as a fold over a state. *)
Fixpoint forEach {A St : Type} (f : A → nat → St → St) (l : list A) (i : nat) (s : St) : St :=
  match l with
  | [] => s
  | x :: l => forEach f l (S i) (f x i s)
  end.

(** The text and the values of the multi-row INSERT. *)
Definition placeholder (i : nat) : string :=
  let base := (i * 2)%nat in
  "($" +:+ pretty (base + 1)%nat +:+ ", $" +:+ pretty (base + 2)%nat +:+ ")".

Definition insert_query (creates : list WriteJob) : string * list (option string) :=
  let values := flat_map (λ job, [name (payload job); email (payload job)]) creates in
  let placeholders := imap (λ i _, placeholder i) creates in
  ("INSERT INTO users (name, email) VALUES " +:+ String.concat "," placeholders
     +:+ String (Ascii.ascii_of_nat 10) "           RETURNING id, name, email, created_at",
   values).

(** [flush()] from its first line to the [await] of the query, or to its
    end when no query is sent. *)
Definition flush (rt : Runtime) : Runtime :=
  if flushing (this rt) || bool_decide (length (queue (this rt)) = 0%nat) then rt
  else
    let batch := take BATCH_SIZE (queue (this rt)) in
    let rest := drop BATCH_SIZE (queue (this rt)) in
    let creates := filter (λ j, type j = create) batch in
    if bool_decide (0 < length creates)%nat then
      {| this := {| queue := rest; flushing := true |};
         promises := promises rt;
         timers := timers rt;
         awaiting := Some (mkFrame batch creates);
         submitted := submitted rt ++ [insert_query creates] |}
    else
      {| this := {| queue := rest; flushing := false |};
         promises := promises rt;
         timers := timers rt;
         awaiting := awaiting rt;
         submitted := submitted rt |}.

(** [flush()] from the [await] to its end, when the query ends with [r]:
    the [forEach] over [creates], or the [catch] block, then [finally]. *)
Definition resume (r : completion (list User)) (rt : Runtime) : Runtime :=
  match awaiting rt with
  | None => rt
  | Some fr =>
      {| this := {| queue := queue (this rt); flushing := false |};
         promises :=
           match r with
           | Returned rows =>
               forEach (λ job i, resolve job (rows !! i)) (creates fr) 0 (promises rt)
           | Threw err =>
               forEach (λ job _, reject job err) (batch fr) 0 (promises rt)
           end;
         timers := timers rt;
         awaiting := None;
         submitted := submitted rt |}
  end.

(** What happens to the queue: a request handler enqueues, the interval
    timer fires, the storage backend answers the query in flight. *)
Inductive event :=
  | Enqueue (ty : JobType) (pl : PartialUser) (ts : Z)
  | Tick
  | Response (r : completion (list User)).

Definition step (rt : Runtime) (ev : event) : Runtime :=
  match ev with
  | Enqueue ty pl ts => (enqueue ty pl ts rt).2
  | Tick => flush rt
  | Response r => resume r rt
  end.

Definition run (rt : Runtime) (evs : list event) : Runtime := foldl step rt evs.

(** The jobs the queue still holds, pending or in flight. *)
Definition held (rt : Runtime) : list WriteJob :=
  from_option batch [] (awaiting rt) ++ queue (this rt).

(** An invariant of the queue: the timer is registered, the flag is set
    exactly while a flush is suspended, and the promises of the held jobs
    are distinct and pending. *)
Record wf (rt : Runtime) : Prop := mkWf {
  wf_timers : timers rt = [FLUSH_INTERVAL_MS];
  wf_flag : flushing (this rt) = true ↔ is_Some (awaiting rt);
  wf_creates : ∀ fr, awaiting rt = Some fr →
      creates fr = filter (λ j, type j = create) (batch fr);
  wf_nodup : NoDup (promise <$> held rt);
  wf_pending : ∀ job, job ∈ held rt → promises rt !! promise job = Some Pending
}.

(** The batch of the suspended flush, if there is one. *)
Definition in_flight (rt : Runtime) : list WriteJob :=
  from_option batch [] (awaiting rt).

(** Request handlers enqueueing one create-intent per request. *)
Definition create_all (reqs : list (PartialUser * Z)) : list event :=
  (λ req, Enqueue create req.1 req.2) <$> reqs.

(** Sample payloads and a sample row. *)
Definition alice : PartialUser :=
  mkPartialUser None (Some "alice") (Some "alice@example.com") None.
Definition bob : PartialUser :=
  mkPartialUser (Some 7%Z) (Some "bob") None None.
Definition alice_row : User := mkUser 1 "alice" "alice@example.com" "2024-01-01".
Definition carol_row : User := mkUser 2 "carol" "carol@example.com" "2024-01-01".

Definition unique_violation : JsError :=
  mkJsError "error" "duplicate key value violates unique constraint" (Some "23505").

(** A queue with a flush suspended on a batch of two creates around an
    update, and the local variables of that flush. *)
Definition three_in_flight : Runtime :=
  run new_WriteQueue
    [Enqueue create alice 1; Enqueue update bob 2; Enqueue create alice 3; Tick].
Definition three_frame : Frame :=
  mkFrame [mkWriteJob create alice 1 0; mkWriteJob update bob 2 1;
           mkWriteJob create alice 3 2]
          [mkWriteJob create alice 1 0; mkWriteJob create alice 3 2].

(** The states the queue gets into from [new WriteQueue()]. *)
Definition reachable (rt : Runtime) : Prop :=
  ∃ evs, rt = run new_WriteQueue evs.

End Queue.

(** ** Shard routing and the Redis reconnect delay ([db.ts]) *)

Module Db.

Local Open Scope Z_scope.

(** The options a [Pool] is made with. *)
Record Pool := mkPool {
  host : string;
  database : string;
  user : string;
  password : string;
  max : Z
}.

Definition DB_SHARDS : list Pool :=
  [mkPool "pg-shard-0" "postgres" "postgres" "postgres" 20;
   mkPool "pg-shard-1" "postgres" "postgres" "postgres" 20].

Definition DB_REPLICA_SHARDS : list Pool :=
  [mkPool "pg-shard-0-replica" "postgres" "postgres" "postgres" 30;
   mkPool "pg-shard-1-replica" "postgres" "postgres" "postgres" 30].

(** [arr[i]] for an integer [i]: [undefined], here [None], when [i] is
    negative or past the end. *)
Definition index {A} (arr : list A) (i : Z) : option A :=
  if bool_decide (0 ≤ i) then arr !! Z.to_nat i else None.

(** Shard routing.  [userId] is an integer; [%] on integers is the
    remainder of the truncated division, with the sign of [userId]. *)
Definition getWriteShard (userId : Z) : option Pool :=
  index DB_SHARDS (Z.rem userId (Z.of_nat (length DB_SHARDS))).
Definition getReadShard (userId : Z) : option Pool :=
  index DB_REPLICA_SHARDS (Z.rem userId (Z.of_nat (length DB_REPLICA_SHARDS))).

(** [reconnectStrategy] of the Redis cluster, on the number of retries. *)
Definition reconnectStrategy (r : Z) : Z := Z.min (r * 50) 2000.

End Db.

(** ** Cache helpers and metrics ([helper.ts]) *)

Module Helper.

Import Breaker.
Local Open Scope Z_scope.

Definition CACHE_TTL : Z := 120.

(** [Number.MAX_SAFE_INTEGER], 2^53 - 1. *)
Definition MAX_SAFE_INTEGER : Z := 9007199254740991.

(** [userKey] on a number with an integer value.  [Number_toString] is the
    conversion of a number to a string that the template literal applies;
    it is a primitive of the language and is taken as given. *)
Definition userKey (Number_toString : Z → string) (id : Z) : string :=
  "u:" +:+ Number_toString id.

Record Metrics := mkMetrics {
  requests : Z;
  cacheHits : Z;
  cacheMisses : Z;
  dbQueries : Z;
  errors : Z
}.

Definition metrics : Metrics := mkMetrics 0 0 0 0 0.

Section Cache.

(** The world holds the Redis cluster; [redis_get] and [redis_setEx] are
    its two commands, [JSON_parse] and [JSON_stringify] may throw. *)
Context {W T V : Type} (Date_now : W → Z).
Context (redis_get : string → W → completion (option string) * W).
Context (redis_setEx : string → Z → string → W → completion string * W).
Context (JSON_parse : string → completion T).
Context (JSON_stringify : V → completion string).

(** The guarded closure of [cacheGetWithCircuit]; [null] is [None], and
    the empty string is falsy like [null]. *)
Definition cacheGet_fn (key : string) : W → completion (option T) * W :=
  λ w,
    match redis_get key w with
    | (Returned val, w') =>
        match val with
        | Some v =>
            if decide (v = "") then (Returned None, w')
            else match JSON_parse v with
                 | Returned x => (Returned (Some x), w')
                 | Threw e => (Threw e, w')
                 end
        | None => (Returned None, w')
        end
    | (Threw e, w') => (Threw e, w')
    end.

(** [() => null] *)
Definition cacheGet_fallback : W → completion (option T) * W :=
  λ w, (Returned None, w).

(** [cacheGetWithCircuit(key)], with the Redis breaker as [this]. *)
Definition cacheGetWithCircuit (key : string) : M (completion (option T)) :=
  execute Date_now (cacheGet_fn key) (Some cacheGet_fallback).

(** The guarded closure of [cacheSetWithCircuit]: the arguments of
    [setEx] are evaluated first.  [undefined] is [None]. *)
Definition cacheSet_fn (key : string) (value : V) (ttl : Z)
  : W → completion (option string) * W :=
  λ w,
    match JSON_stringify value with
    | Returned text =>
        match redis_setEx key ttl text w with
        | (Returned reply, w') => (Returned (Some reply), w')
        | (Threw e, w') => (Threw e, w')
        end
    | Threw e => (Threw e, w)
    end.

(** [() => undefined] *)
Definition cacheSet_fallback : W → completion (option string) * W :=
  λ w, (Returned None, w).

(** [cacheSetWithCircuit(key, value, ttl = CACHE_TTL)] *)
Definition cacheSetWithCircuit (key : string) (value : V) (ttl : option Z)
  : M (completion (option string)) :=
  execute Date_now (cacheSet_fn key value (default CACHE_TTL ttl))
    (Some cacheSet_fallback).

End Cache.

End Helper.

(** ** Route handlers ([routes.ts]) *)

Module Routes.

Import Breaker Queue Db Helper.
Local Open Scope Z_scope.

(** What a handler answers with: [res.status(s).json(b)] or [next(err)]. *)
Inductive body :=
  | data (u : option User)
  | error (msg : string).
Inductive reply :=
  | json (status : Z) (b : body)
  | next (err : JsError).

Definition errors_incr (m : Metrics) : Metrics :=
  mkMetrics (requests m) (cacheHits m) (cacheMisses m) (dbQueries m) (errors m + 1).
Definition dbQueries_incr (m : Metrics) : Metrics :=
  mkMetrics (requests m) (cacheHits m) (cacheMisses m) (dbQueries m + 1) (errors m).

(** [POST /api/users] up to its [await]: the create-intent is enqueued
    with the name and email of the request body. *)
Definition post_users_enqueue (name email : option string) (now : Z) (rt : Runtime)
  : nat * Runtime :=
  enqueue create (mkPartialUser None name email None) now rt.

(** [POST /api/users] from its [await] on, given the state of the promise:
    nothing while it is pending, then the answer and the metrics. *)
Definition post_users_settled (st : PromiseState) (m : Metrics)
  : option (reply * Metrics) :=
  match st with
  | Pending => None
  | Fulfilled user => Some (json 201 (data user), m)
  | Rejected err =>
      let m := errors_incr m in
      if decide (err_code err = Some "23505")
      then Some (json 409 (error "Email taken"), m)
      else Some (next err, m)
  end.

(** [x.query] on [undefined]. *)
Definition query_of_undefined : JsError :=
  mkJsError "TypeError" "Cannot read properties of undefined (reading 'query')" None.

Section ReadUser.

(** The world of the handlers is the metrics object and the rest, on which
    the query of a pool acts. *)
Context {E : Type}.
Context (query : Pool → string → list Z → E → completion (list User) * E).

(** The closure that [GET /api/users/:id] hands to [dbCircuit.execute]. *)
Definition get_user_fn (id : Z) : Metrics * E → completion (list User) * (Metrics * E) :=
  λ w,
    let m := dbQueries_incr w.1 in
    match getReadShard id with
    | Some pool =>
        let (r, e) :=
          query pool "SELECT id, name, email, created_at FROM users WHERE id=$1" [id] w.2 in
        (r, (m, e))
    | None => (Threw query_of_undefined, (m, w.2))
    end.

End ReadUser.

End Routes.

(** ** What a run of the queue takes off its head *)

Module QueueHistory.

Import Queue.

(** The jobs a step takes off the head of the queue. *)
Definition taken (rt : Runtime) (ev : event) : list WriteJob :=
  take (length (queue (this rt)) - length (queue (this (step rt ev)))) (queue (this rt)).

(** The jobs a run takes off the queue, in the order it takes them. *)
Fixpoint drained (rt : Runtime) (evs : list event) : list WriteJob :=
  match evs with
  | [] => []
  | ev :: evs => taken rt ev ++ drained (step rt ev) evs
  end.

(** The jobs the handlers enqueue in a run, the first of them with promise
    number [p]. *)
Fixpoint jobs_of (evs : list event) (p : nat) : list WriteJob :=
  match evs with
  | [] => []
  | Enqueue ty pl ts :: evs => mkWriteJob ty pl ts p :: jobs_of evs (S p)
  | _ :: evs => jobs_of evs p
  end.

(** [k] timer ticks, each followed by the answer to its query. *)
Definition cycles (rs : list (completion (list User))) : list event :=
  flat_map (λ r, [Tick; Response r]) rs.

End QueueHistory.

(** ** Properties of the circuit breaker *)

Module BreakerProps.

Import Breaker.
Local Open Scope Z_scope.

(** A guarded function that fails whatever the world is. *)
Definition always_fails {W T} (fn : W → completion T * W) : Prop :=
  ∀ w, ∃ e w', fn w = (Threw e, w').

(** A guarded function that succeeds whatever the world is. *)
Definition always_succeeds {W T} (fn : W → completion T * W) : Prop :=
  ∀ w, ∃ v w', fn w = (Returned v, w').

(** The condition of [onFailure] for opening the circuit, on the fields
    before the call. *)
Definition opens (b : CircuitBreaker) : bool :=
  bool_decide (threshold b ≤ failures b + 1) || bool_decide (state b = HALF_OPEN).

(** The condition of [onSuccess] for closing the circuit, on the fields
    before the call. *)
Definition closes (b : CircuitBreaker) : bool :=
  bool_decide (state b = HALF_OPEN) && bool_decide (successThreshold b ≤ successCount b + 1).


(** Sample closures over a world that is just the clock: a dependency that
    refuses the connection after 5 ms, and one that answers after 5 ms. *)
Definition down (w : Z) : completion nat * Z :=
  (Threw (mkJsError "Error" "connect ECONNREFUSED" (Some "ECONNREFUSED")), w + 5).
Definition up (w : Z) : completion nat * Z := (Returned 1%nat, w + 5).


(** [dbCircuit] after three failures, the last one at time 15. *)
Definition tripped : CircuitBreaker :=
  mkCircuitBreaker "postgres" 3 20000 2 OPEN 3 0 15.

(** [dbCircuit] while it probes, one success counted. *)
Definition probing : CircuitBreaker :=
  mkCircuitBreaker "postgres" 3 20000 2 HALF_OPEN 0 1 15.

Lemma fn_calls_app (tr1 tr2 : list effect) :
  fn_calls (tr1 ++ tr2) = (fn_calls tr1 + fn_calls tr2)%nat.
Proof. unfold fn_calls. by rewrite List.filter_app, length_app. Qed.

Ltac run_methods :=
  unfold execute, gate, attempt, onSuccess, onFailure, getState, invoke,
    bind, ret, get_this, assign, perform, now; simpl.

Section WithWorld.

Context {W : Type} (Date_now : W → Z).

Lemma onFailure_this (s : Sys W) :
  let s' := (onFailure Date_now s).2 in
  failures (this s') = failures (this s) + 1 ∧
  lastFailureTime (this s') = Date_now (world s) ∧
  state (this s') = (if opens (this s) then OPEN else state (this s)) ∧
  successCount (this s') = (if opens (this s) then 0 else successCount (this s)) ∧
  name (this s') = name (this s) ∧
  threshold (this s') = threshold (this s) ∧
  timeout (this s') = timeout (this s) ∧
  successThreshold (this s') = successThreshold (this s) ∧
  world s' = world s ∧
  fn_calls (trace s') = fn_calls (trace s).
Proof.
  destruct s as [b w tr]. unfold opens. run_methods.
  destruct (bool_decide (threshold b ≤ failures b + 1) || bool_decide (state b = HALF_OPEN));
    simpl; rewrite ?fn_calls_app; unfold fn_calls; simpl; repeat split; (done || lia).
Qed.

Lemma onSuccess_this (s : Sys W) :
  let s' := (onSuccess s).2 in
  failures (this s') = 0 ∧
  lastFailureTime (this s') = lastFailureTime (this s) ∧
  state (this s') = (if closes (this s) then CLOSED else state (this s)) ∧
  successCount (this s') =
    (if closes (this s) then 0
     else if bool_decide (state (this s) = HALF_OPEN) then successCount (this s) + 1
     else successCount (this s)) ∧
  name (this s') = name (this s) ∧
  threshold (this s') = threshold (this s) ∧
  timeout (this s') = timeout (this s) ∧
  successThreshold (this s') = successThreshold (this s) ∧
  world s' = world s ∧
  fn_calls (trace s') = fn_calls (trace s).
Proof.
  destruct s as [b w tr]. unfold closes. run_methods.
  destruct (decide (state b = HALF_OPEN)) as [Hh|Hh]; simpl.
  - rewrite (bool_decide_eq_true_2 _ Hh). simpl.
    destruct (bool_decide (successThreshold b ≤ successCount b + 1));
      simpl; rewrite ?fn_calls_app; unfold fn_calls; simpl; repeat split; (done || lia).
  - rewrite (bool_decide_eq_false_2 _ Hh). simpl. repeat split; (done || lia).
Qed.

Section WithResult.

Context {T : Type}.
Implicit Types (fn : W → completion T * W) (fallback : option (W → completion T * W)).
Implicit Types (calls : list ((W → completion T * W) * option (W → completion T * W))).

(** Outside the Open state the gate lets the call through untouched. *)
Lemma gate_not_open fallback (s : Sys W) :
  state (this s) ≠ OPEN → gate Date_now fallback s = (None, s).
Proof.
  intros Hs. destruct s as [b w tr]. run_methods. simpl in Hs.
  by destruct (decide (state b = OPEN)).
Qed.

(** In the Open state, once [timeout] has run out, the gate sets the
    state to HalfOpen, logs, and lets the call through. *)
Lemma gate_open_elapsed fallback (s : Sys W) :
  state (this s) = OPEN →
  timeout (this s) < Date_now (world s) - lastFailureTime (this s) →
  gate Date_now fallback s
  = (None, mkSys (set_state HALF_OPEN (this s)) (world s)
             (trace s ++ [logger_info ("Circuit " +:+ name (this s)
                                       +:+ ": HALF_OPEN — testing")])).
Proof.
  intros Hst Hlt. destruct s as [b w tr]. simpl in *. run_methods.
  destruct (decide (state b = OPEN)) as [_|]; [|done].
  by rewrite (bool_decide_eq_true_2 (timeout b < Date_now w - lastFailureTime b)) by lia.
Qed.

Lemma execute_not_open fn fallback (s : Sys W) :
  state (this s) ≠ OPEN →
  execute Date_now fn fallback s = attempt Date_now fn fallback s.
Proof.
  intros Hs. unfold execute, bind at 1. by rewrite gate_not_open.
Qed.

(** The breaker after an attempt whose guarded call throws. *)
Lemma attempt_threw fn fallback (s : Sys W) e w' :
  fn (world s) = (Threw e, w') →
  this (attempt Date_now fn fallback s).2
  = this (onFailure Date_now (mkSys (this s) w' (trace s ++ [call_fn]))).2.
Proof.
  intros Hfn. unfold attempt, bind at 1, invoke at 1. rewrite Hfn.
  unfold bind at 1.
  destruct (onFailure Date_now _) as [[] s1]. simpl.
  destruct fallback as [fb|]; [|done].
  unfold invoke. by destruct (fb (world s1)).
Qed.

(** The breaker after an attempt whose guarded call returns. *)
Lemma attempt_returned fn fallback (s : Sys W) v w' :
  fn (world s) = (Returned v, w') →
  attempt Date_now fn fallback s
  = (Returned v, (onSuccess (mkSys (this s) w' (trace s ++ [call_fn]))).2).
Proof.
  intros Hfn. unfold attempt, bind at 1, invoke at 1. rewrite Hfn.
  unfold bind at 1. by destruct (onSuccess _) as [[] s1].
Qed.


Lemma execute_all_cons fn fallback calls (s : Sys W) :
  (execute_all Date_now ((fn, fallback) :: calls) s).2
  = (execute_all Date_now calls (execute Date_now fn fallback s).2).2.
Proof.
  cbn [execute_all]. unfold bind, ret.
  destruct (execute Date_now fn fallback s) as [r s1].
  simpl. by destruct (execute_all Date_now calls s1).
Qed.

(** One failing call in the Closed state. *)
Lemma execute_closed_threw fn fallback (s : Sys W) e w' :
  state (this s) = CLOSED →
  fn (world s) = (Threw e, w') →
  let b' := this (execute Date_now fn fallback s).2 in
  failures b' = failures (this s) + 1 ∧
  lastFailureTime b' = Date_now w' ∧
  state b' = (if bool_decide (threshold (this s) ≤ failures (this s) + 1)
              then OPEN else CLOSED) ∧
  threshold b' = threshold (this s).
Proof.
  intros Hst Hfn. simpl.
  rewrite execute_not_open by (rewrite Hst; done).
  rewrite (attempt_threw _ _ _ _ _ Hfn).
  pose proof (onFailure_this (mkSys (this s) w' (trace s ++ [call_fn]))) as H.
  simpl in H. destruct H as (Hf & Ht & Hs & _ & _ & Hth & _).
  rewrite Hf, Ht, Hs, Hth. unfold opens. rewrite Hst. simpl.
  rewrite orb_false_r. by destruct (bool_decide _).
Qed.

(** One successful call in the HalfOpen state. *)
Lemma execute_half_open_returned fn fallback (s : Sys W) v w' :
  state (this s) = HALF_OPEN →
  fn (world s) = (Returned v, w') →
  let b' := this (execute Date_now fn fallback s).2 in
  let done := bool_decide (successThreshold (this s) ≤ successCount (this s) + 1) in
  failures b' = 0 ∧
  state b' = (if done then CLOSED else HALF_OPEN) ∧
  successCount b' = (if done then 0 else successCount (this s) + 1) ∧
  successThreshold b' = successThreshold (this s).
Proof.
  intros Hst Hfn. simpl.
  rewrite execute_not_open by (rewrite Hst; done).
  rewrite (attempt_returned _ _ _ _ _ Hfn). simpl.
  pose proof (onSuccess_this (mkSys (this s) w' (trace s ++ [call_fn]))) as H.
  simpl in H. destruct H as (Hf & _ & Hs & Hc & _ & _ & _ & Hth & _).
  rewrite Hf, Hs, Hc, Hth. unfold closes. rewrite Hst. simpl.
  by destruct (bool_decide _).
Qed.

(** Failures in a row from the Closed state, up to the threshold. *)
Lemma closed_failures_run calls : ∀ s : Sys W,
  state (this s) = CLOSED →
  calls ≠ [] →
  Forall (λ c, always_fails c.1) calls →
  failures (this s) + Z.of_nat (length calls) ≤ threshold (this s) →
  let b' := this (execute_all Date_now calls s).2 in
  failures b' = failures (this s) + Z.of_nat (length calls) ∧
  state b' = (if bool_decide (threshold (this s) ≤ failures (this s) + Z.of_nat (length calls))
              then OPEN else CLOSED).
Proof.
  induction calls as [|[fn fallback] rest IH]; intros s Hst Hne Hall Hle; [done|].
  apply Forall_cons in Hall as [Hfn Hrest]. simpl in Hfn.
  destruct (Hfn (world s)) as (e & w' & Hcall).
  cbv zeta. rewrite execute_all_cons.
  destruct (execute_closed_threw fn fallback s e w' Hst Hcall) as (Hf & _ & Hs & Hth).
  destruct rest as [|c rest'].
  - simpl. rewrite Hf, Hs. done.
  - set (s1 := (execute Date_now fn fallback s).2) in *.
    set (n := length (c :: rest')) in *.
    assert (0 < Z.of_nat n) by (subst n; simpl; lia).
    replace (length ((fn, fallback) :: c :: rest')) with (S n) in * by done.
    assert (state (this s1) = CLOSED) as Hst1.
    { rewrite Hs. rewrite bool_decide_eq_false_2; [done|lia]. }
    destruct (IH s1 Hst1 ltac:(done) Hrest) as [Hf' Hs'].
    { rewrite Hf, Hth. lia. }
    cbv zeta in Hf', Hs'. rewrite Hf', Hs', Hf, Hth.
    split; repeat case_bool_decide; done || lia.
Qed.

(** Successes in a row from the HalfOpen state, up to the threshold. *)
Lemma half_open_successes_run calls : ∀ s : Sys W,
  state (this s) = HALF_OPEN →
  calls ≠ [] →
  Forall (λ c, always_succeeds c.1) calls →
  successCount (this s) + Z.of_nat (length calls) ≤ successThreshold (this s) →
  let b' := this (execute_all Date_now calls s).2 in
  let done := bool_decide (successThreshold (this s)
                           ≤ successCount (this s) + Z.of_nat (length calls)) in
  failures b' = 0 ∧
  state b' = (if done then CLOSED else HALF_OPEN) ∧
  successCount b' = (if done then 0 else successCount (this s) + Z.of_nat (length calls)).
Proof.
  induction calls as [|[fn fallback] rest IH]; intros s Hst Hne Hall Hle; [done|].
  apply Forall_cons in Hall as [Hfn Hrest]. simpl in Hfn.
  destruct (Hfn (world s)) as (v & w' & Hcall).
  cbv zeta. rewrite execute_all_cons.
  destruct (execute_half_open_returned fn fallback s v w' Hst Hcall)
    as (Hf & Hs & Hc & Hth).
  destruct rest as [|c rest'].
  - simpl. rewrite Hf, Hs, Hc. done.
  - set (s1 := (execute Date_now fn fallback s).2) in *.
    set (n := length (c :: rest')) in *.
    assert (0 < Z.of_nat n) by (subst n; simpl; lia).
    replace (length ((fn, fallback) :: c :: rest')) with (S n) in * by done.
    rewrite bool_decide_eq_false_2 in Hs, Hc by lia.
    destruct (IH s1 Hs ltac:(done) Hrest) as (Hf' & Hs' & Hc').
    { rewrite Hc, Hth. lia. }
    cbv zeta in Hf', Hs', Hc'. rewrite Hf', Hs', Hc', Hc, Hth.
    repeat split; repeat case_bool_decide; done || lia.
Qed.

(** C4. In the Closed state a failing guarded call adds one to
    [failures] and records the time of the failure, and the breaker is
    Open afterwards exactly when the count has reached [threshold]; a
    successful guarded call sets [failures] to 0 and leaves the breaker
    Closed; and a run of failing calls that brings the count up to
    [threshold] ends in the Open state, any shorter run in Closed. *)
Theorem closed_failure_accounting fn fallback (s : Sys W) :
  state (this s) = CLOSED →
  (let b' := this (execute Date_now fn fallback s).2 in
   match fn (world s) with
   | (Threw _, w') =>
       failures b' = failures (this s) + 1 ∧
       lastFailureTime b' = Date_now w' ∧
       state b' = (if bool_decide (threshold (this s) ≤ failures (this s) + 1)
                   then OPEN else CLOSED)
   | (Returned _, _) => failures b' = 0 ∧ state b' = CLOSED
   end) ∧
  (∀ calls,
     calls ≠ [] →
     Forall (λ c, always_fails c.1) calls →
     failures (this s) + Z.of_nat (length calls) ≤ threshold (this s) →
     let b' := this (execute_all Date_now calls s).2 in
     failures b' = failures (this s) + Z.of_nat (length calls) ∧
     state b' = (if bool_decide (threshold (this s)
                                 ≤ failures (this s) + Z.of_nat (length calls))
                 then OPEN else CLOSED)).
Proof.
  intros Hst. split.
  - destruct (fn (world s)) as [[v|e] w'] eqn:Hfn.
    + cbv zeta. rewrite execute_not_open by (rewrite Hst; done).
      rewrite (attempt_returned _ _ _ _ _ Hfn). simpl.
      pose proof (onSuccess_this (mkSys (this s) w' (trace s ++ [call_fn]))) as H.
      simpl in H. destruct H as (Hf & _ & Hs & _).
      rewrite Hf, Hs. unfold closes. by rewrite Hst.
    + destruct (execute_closed_threw fn fallback s e w' Hst Hfn) as (? & ? & ? & _).
      done.
  - intros calls. by apply closed_failures_run.
Qed.

(** C5. While the breaker is Open and the time since the last failure
    has not exceeded [timeout], [execute] does not call the guarded
    function and leaves the breaker as it is: with a fallback it
    returns what the fallback returns, without one it throws the
    open-circuit error. *)
Theorem execute_open_fast_fail fn fallback (s : Sys W) :
  state (this s) = OPEN →
  Date_now (world s) - lastFailureTime (this s) ≤ timeout (this s) →
  let out := execute Date_now fn fallback s in
  fn_calls (trace out.2) = fn_calls (trace s) ∧
  this out.2 = this s ∧
  match fallback with
  | Some fb =>
      out.1 = (fb (world s)).1 ∧
      world out.2 = (fb (world s)).2 ∧
      trace out.2 = trace s ++ [call_fallback]
  | None =>
      out.1 = Threw (new_Error ("Circuit " +:+ name (this s) +:+ " is OPEN")) ∧
      out.2 = s
  end ∧
  ∀ fn', execute Date_now fn' fallback s = out.
Proof.
  intros Hst Hle. destruct s as [b w tr]. simpl in *. run_methods.
  destruct (decide (state b = OPEN)) as [_|]; [|done].
  rewrite (bool_decide_eq_false_2 (timeout b < Date_now w - lastFailureTime b)) by lia.
  destruct fallback as [fb|]; simpl.
  - destruct (fb w) as [r w1]. simpl. rewrite fn_calls_app.
    unfold fn_calls. simpl. repeat split; (done || lia).
  - done.
Qed.


(** C7. In the HalfOpen state a successful guarded call adds one to
    [successCount], and when that reaches [successThreshold] the
    breaker becomes Closed with both counters at 0; a failing guarded
    call makes the breaker Open, sets [successCount] to 0 and records
    the time of the failure; and a run of successful calls that brings
    the count up to [successThreshold] ends in the Closed state, any
    shorter run in HalfOpen. *)
Theorem half_open_accounting fn fallback (s : Sys W) :
  state (this s) = HALF_OPEN →
  (let b' := this (execute Date_now fn fallback s).2 in
   match fn (world s) with
   | (Returned _, _) =>
       if bool_decide (successThreshold (this s) ≤ successCount (this s) + 1)
       then state b' = CLOSED ∧ failures b' = 0 ∧ successCount b' = 0
       else state b' = HALF_OPEN ∧ successCount b' = successCount (this s) + 1
   | (Threw _, w') =>
       state b' = OPEN ∧ successCount b' = 0 ∧ lastFailureTime b' = Date_now w'
   end) ∧
  (∀ calls,
     calls ≠ [] →
     Forall (λ c, always_succeeds c.1) calls →
     successCount (this s) + Z.of_nat (length calls) ≤ successThreshold (this s) →
     let b' := this (execute_all Date_now calls s).2 in
     if bool_decide (successThreshold (this s)
                     ≤ successCount (this s) + Z.of_nat (length calls))
     then state b' = CLOSED ∧ failures b' = 0 ∧ successCount b' = 0
     else state b' = HALF_OPEN ∧
          successCount b' = successCount (this s) + Z.of_nat (length calls)).
Proof.
  intros Hst. split.
  - destruct (fn (world s)) as [[v|e] w'] eqn:Hfn.
    + destruct (execute_half_open_returned fn fallback s v w' Hst Hfn)
        as (Hf & Hs & Hc & _).
      cbv zeta in *. by destruct (bool_decide _).
    + cbv zeta. rewrite execute_not_open by (rewrite Hst; done).
      rewrite (attempt_threw _ _ _ _ _ Hfn).
      pose proof (onFailure_this (mkSys (this s) w' (trace s ++ [call_fn]))) as H.
      simpl in H. destruct H as (_ & Ht & Hs & Hc & _).
      rewrite Ht, Hs, Hc. unfold opens. rewrite Hst. simpl.
      by rewrite orb_true_r.
  - intros calls Hne Hall Hle.
    destruct (half_open_successes_run calls s Hst Hne Hall Hle) as (Hf & Hs & Hc).
    cbv zeta in *. by destruct (bool_decide _).
Qed.


End WithResult.

(** C10. [getState] returns the [state] field and changes nothing, and
    so does any number of calls in a row; in an Open breaker whose
    [timeout] has run out they keep returning Open, and it is the gate of
    the next [execute] that makes the state HalfOpen. *)
Theorem getState_pure (s : Sys W) (k : nat) :
  getState s = (state (this s), s) ∧
  poll k s = (replicate k (state (this s)), s) ∧
  (state (this s) = OPEN →
   timeout (this s) < Date_now (world s) - lastFailureTime (this s) →
   poll k s = (replicate k OPEN, s) ∧
   state (this (poll k s).2) = OPEN ∧
   ∀ T (fallback : option (W → completion T * W)),
     state (this (gate Date_now fallback (poll k s).2).2) = HALF_OPEN).
Proof.
  assert (∀ n, poll n s = (replicate n (state (this s)), s)) as Hpoll.
  { induction n as [|n IH]; [done|].
    cbn [poll]. unfold bind at 1, getState, bind at 1, get_this, ret.
    unfold bind. by rewrite IH. }
  split; [done|]. split; [done|].
  intros Hst Hlt. rewrite Hpoll, Hst. simpl. repeat split; [done|].
  intros T fallback. by rewrite gate_open_elapsed.
Qed.

End WithWorld.

(** ** The claims at concrete breakers *)


Lemma closed_failure_accounting_witness :
  state dbCircuit = CLOSED ∧
  state (this (execute (λ w, w) down None (mkSys dbCircuit 0 [])).2) = CLOSED ∧
  state (this (execute_all (λ w, w) [(down, None); (down, None); (down, None)]
                 (mkSys dbCircuit 0 [])).2) = OPEN.
Proof.
  destruct (closed_failure_accounting (λ w, w) down None (mkSys dbCircuit 0 []) eq_refl)
    as [Hone Hrun].
  split; [reflexivity|]. split.
  - exact (proj2 (proj2 Hone)).
  - refine (proj2 (Hrun [(down, None); (down, None); (down, None)] _ _ _)).
    + discriminate.
    + repeat constructor; intros w; eexists _, _; reflexivity.
    + simpl. lia.
Defined.

Lemma execute_open_fast_fail_witness :
  state tripped = OPEN ∧
  100 - lastFailureTime tripped ≤ timeout tripped ∧
  fn_calls (trace (execute (λ w, w) up None (mkSys tripped 100 [])).2) = 0%nat.
Proof.
  split; [reflexivity|]. split; [simpl; lia|].
  refine (proj1 (execute_open_fast_fail (λ w, w) up None (mkSys tripped 100 []) eq_refl _)).
  simpl. lia.
Defined.


Lemma half_open_accounting_witness :
  state probing = HALF_OPEN ∧
  state (this (execute (λ w, w) up None (mkSys probing 20016 [])).2) = CLOSED ∧
  state (this (execute_all (λ w, w) [(up, None)] (mkSys probing 20016 [])).2) = CLOSED.
Proof.
  destruct (half_open_accounting (λ w, w) up None (mkSys probing 20016 []) eq_refl)
    as [Hone Hrun].
  split; [reflexivity|]. split.
  - exact (proj1 Hone).
  - refine (proj1 (Hrun [(up, None)] _ _ _)).
    + discriminate.
    + repeat constructor; intros w; eexists _, _; reflexivity.
    + simpl. lia.
Defined.


Lemma getState_pure_witness :
  state tripped = OPEN ∧
  timeout tripped < 20016 - lastFailureTime tripped ∧
  poll 3 (mkSys tripped 20016 []) = ([OPEN; OPEN; OPEN], mkSys tripped 20016 []).
Proof.
  split; [reflexivity|]. split; [simpl; lia|].
  refine (proj1 (proj2 (proj2 (getState_pure (λ w, w) (mkSys tripped 20016 []) 3)) eq_refl _)).
  simpl. lia.
Defined.

End BreakerProps.

(** ** Properties of the batching write queue *)

Module QueueProps.

Import Queue.

(** *** Settling promises *)

Lemma settle_length p st heap : length (settle p st heap) = length heap.
Proof.
  unfold settle. destruct (heap !! p) as [[]|]; try done. apply length_insert.
Qed.

Lemma settle_lookup_ne p q st heap :
  p ≠ q → settle q st heap !! p = heap !! p.
Proof.
  intros Hne. unfold settle. destruct (heap !! q) as [[]|]; try done.
  by apply list_lookup_insert_ne.
Qed.

Lemma settle_lookup_pending p st heap :
  heap !! p = Some Pending → settle p st heap !! p = Some st.
Proof.
  intros Hp. unfold settle. rewrite Hp.
  apply list_lookup_insert_eq. by eapply lookup_lt_Some.
Qed.

(** A settled promise stays as it is, whatever is settled later. *)
Lemma settle_lookup_settled p q st st0 heap :
  heap !! p = Some st0 → st0 ≠ Pending → settle q st heap !! p = Some st0.
Proof.
  intros Hp Hst0. destruct (decide (p = q)) as [->|Hne].
  - unfold settle. rewrite Hp. by destruct st0.
  - by rewrite settle_lookup_ne.
Qed.

Section ForEach.

(** A [forEach] whose callback settles the promise of the job with an
    outcome [g] that depends on the job and its index. *)
Context (g : WriteJob → nat → PromiseState).
Let f := λ (job : WriteJob) (i : nat), settle (promise job) (g job i).

Lemma forEach_settle_length l : ∀ i heap,
  length (forEach f l i heap) = length heap.
Proof.
  induction l as [|job l IH]; intros i heap; simpl; [done|].
  rewrite IH. apply settle_length.
Qed.

Lemma forEach_settle_other l p : ∀ i heap,
  p ∉ promise <$> l → forEach f l i heap !! p = heap !! p.
Proof.
  induction l as [|job l IH]; intros i heap Hp; simpl; [done|].
  rewrite fmap_cons, not_elem_of_cons in Hp. destruct Hp as [Hne Hp].
  rewrite IH by done. by apply settle_lookup_ne.
Qed.

Lemma forEach_settle_settled l p st0 : ∀ i heap,
  heap !! p = Some st0 → st0 ≠ Pending → forEach f l i heap !! p = Some st0.
Proof.
  induction l as [|job l IH]; intros i heap Hp Hst0; simpl; [done|].
  apply IH; [|done]. by apply settle_lookup_settled.
Qed.

Lemma forEach_settle_at l : ∀ i heap n job,
  NoDup (promise <$> l) →
  l !! n = Some job →
  heap !! promise job = Some Pending →
  forEach f l i heap !! promise job = Some (g job (i + n)).
Proof.
  induction l as [|job0 l IH]; intros i heap n job Hnd Hn Hp; [done|].
  rewrite fmap_cons in Hnd. apply NoDup_cons in Hnd as [Hfresh Hnd].
  destruct n as [|n]; simpl in Hn.
  - injection Hn as ->. simpl.
    rewrite forEach_settle_other by done.
    rewrite Nat.add_0_r. by apply settle_lookup_pending.
  - simpl. replace (i + S n) with (S i + n) by lia.
    apply IH; [done..|]. unfold f.
    rewrite settle_lookup_ne; [done|].
    intros Heq. apply Hfresh. rewrite <- Heq.
    apply list_elem_of_fmap_2. by eapply list_elem_of_lookup_2.
Qed.

End ForEach.

(** *** The invariant *)

Lemma wf_new : wf new_WriteQueue.
Proof.
  split.
  - done.
  - simpl. split; [done|]. by intros [? ?].
  - done.
  - constructor.
  - intros job Hjob. by apply elem_of_nil in Hjob.
Qed.

Lemma wf_enqueue ty pl ts rt : wf rt → wf (enqueue ty pl ts rt).2.
Proof.
  intros [Htm Hflag Hcr Hnd Hpend]. split.
  - done.
  - done.
  - done.
  - unfold held in *. simpl. rewrite app_assoc, fmap_app. simpl.
    apply NoDup_app. split; [done|]. split; [|apply NoDup_singleton].
    intros p Hp Hin. apply list_elem_of_singleton in Hin as ->.
    apply list_elem_of_fmap in Hp as (job & Heq & Hjob).
    apply Hpend, lookup_lt_Some in Hjob. lia.
  - intros job Hjob. unfold held in *. simpl in Hjob.
    rewrite app_assoc in Hjob. apply elem_of_app in Hjob as [Hjob|Hjob].
    + by apply lookup_app_l_Some, Hpend.
    + apply list_elem_of_singleton in Hjob as ->. simpl.
      rewrite lookup_app_r by done. by rewrite Nat.sub_diag.
Qed.

Lemma wf_flush rt : wf rt → wf (flush rt).
Proof.
  intros Hwf. pose proof Hwf as [Htm Hflag Hcr Hnd Hpend]. unfold flush.
  destruct (flushing (this rt)) eqn:Hfl; simpl; [done|].
  case_bool_decide; [done|].
  assert (awaiting rt = None) as Hnone.
  { destruct (awaiting rt) eqn:Haw; [|done].
    destruct Hflag as [_ Hflag]. by discriminate Hflag. }
  unfold held in Hnd, Hpend. rewrite Hnone in Hnd, Hpend. simpl in Hnd, Hpend.
  case_bool_decide; split.
  - done.
  - simpl. split; [by eexists|done].
  - by intros fr [= <-].
  - unfold held. simpl. by rewrite take_drop.
  - intros job. unfold held. simpl. rewrite take_drop. apply Hpend.
  - done.
  - simpl. rewrite Hnone. split; [done|]. by intros [? ?].
  - simpl. by rewrite Hnone.
  - unfold held. simpl. rewrite Hnone. simpl.
    eapply sublist_NoDup; [exact Hnd|]. apply fmap_sublist, sublist_drop.
  - intros job. unfold held. simpl. rewrite Hnone. simpl.
    intros Hjob. apply Hpend. eapply elem_of_sublist; [done|apply sublist_drop].
Qed.

Lemma wf_resume r rt : wf rt → wf (resume r rt).
Proof.
  intros Hwf. pose proof Hwf as [Htm Hflag Hcr Hnd Hpend]. unfold resume.
  destruct (awaiting rt) as [fr|] eqn:Haw; [|done].
  unfold held in Hnd, Hpend. rewrite Haw in Hnd, Hpend. simpl in Hnd, Hpend.
  rewrite fmap_app in Hnd. apply NoDup_app in Hnd as (Hndb & Hdisj & Hndq).
  split.
  - done.
  - simpl. split; [done|]. by intros [? ?].
  - done.
  - done.
  - intros job Hjob. unfold held in Hjob. simpl in Hjob.
    assert (promise job ∉ promise <$> batch fr) as Hnb.
    { intros Hin. apply (Hdisj _ Hin). by apply list_elem_of_fmap_2. }
    assert (promises rt !! promise job = Some Pending) as Hp.
    { apply Hpend, elem_of_app. by right. }
    simpl. unfold resolve, reject. destruct r as [rows|err].
    + rewrite (forEach_settle_other (λ job i, Fulfilled (rows !! i))); [done|].
      rewrite (Hcr fr eq_refl). intros Hin. apply Hnb.
      eapply elem_of_sublist; [done|]. apply fmap_sublist, sublist_filter.
    + by rewrite (forEach_settle_other (λ job _, Rejected err)).
Qed.

Lemma wf_step rt ev : wf rt → wf (step rt ev).
Proof.
  destruct ev; simpl; [apply wf_enqueue | apply wf_flush | apply wf_resume].
Qed.

Lemma wf_run evs : ∀ rt, wf rt → wf (run rt evs).
Proof.
  induction evs as [|ev evs IH]; intros rt Hwf; [done|].
  apply IH. by apply wf_step.
Qed.

Lemma reachable_wf rt : reachable rt → wf rt.
Proof. intros [evs ->]. apply wf_run, wf_new. Qed.

Lemma reachable_run rt evs : reachable rt → reachable (run rt evs).
Proof.
  intros [evs0 ->]. exists (evs0 ++ evs). unfold run. by rewrite foldl_app.
Qed.

(** *** What the steps leave alone *)

Lemma flush_promises rt : promises (flush rt) = promises rt.
Proof. unfold flush. repeat case_match; done. Qed.

Lemma resume_awaiting r rt fr :
  awaiting rt = Some fr →
  resume r rt
  = {| this := {| queue := queue (this rt); flushing := false |};
       promises :=
         match r with
         | Returned rows =>
             forEach (λ job i, resolve job (rows !! i)) (creates fr) 0 (promises rt)
         | Threw err => forEach (λ job _, reject job err) (batch fr) 0 (promises rt)
         end;
       timers := timers rt;
       awaiting := None;
       submitted := submitted rt |}.
Proof. intros Haw. unfold resume. by rewrite Haw. Qed.

(** The jobs held after a flush were held before it. *)
Lemma held_flush rt job : job ∈ held (flush rt) → job ∈ held rt.
Proof.
  unfold flush, held. repeat case_match; simpl; try done.
  - rewrite take_drop. intros Hjob. apply elem_of_app. by right.
  - rewrite !elem_of_app. intros [Hjob|Hjob]; [by left|right].
    eapply elem_of_sublist; [done|apply sublist_drop].
Qed.

Lemma held_resume r rt job : job ∈ held (resume r rt) → job ∈ held rt.
Proof.
  unfold resume, held. destruct (awaiting rt) as [fr|] eqn:Haw; simpl; [|by rewrite Haw].
  intros Hjob. apply elem_of_app. by right.
Qed.

(** A settled promise keeps its state for good. *)
Lemma settled_step rt ev p st :
  promises rt !! p = Some st → st ≠ Pending → promises (step rt ev) !! p = Some st.
Proof.
  intros Hp Hst. destruct ev as [ty pl ts| |r]; simpl.
  - by apply lookup_app_l_Some.
  - by rewrite flush_promises.
  - unfold resume. destruct (awaiting rt) as [fr|]; simpl; [|done].
    unfold resolve, reject. destruct r as [rows|err].
    + by apply (forEach_settle_settled (λ job i, Fulfilled (rows !! i))).
    + by apply (forEach_settle_settled (λ job _, Rejected err)).
Qed.

Lemma settled_run evs : ∀ rt p st,
  promises rt !! p = Some st → st ≠ Pending → promises (run rt evs) !! p = Some st.
Proof.
  induction evs as [|ev evs IH]; intros rt p st Hp Hst; [done|].
  apply IH; [|done]. by apply settled_step.
Qed.

(** A pending promise that no held job settles. *)
Definition orphan (p : nat) (rt : Runtime) : Prop :=
  promises rt !! p = Some Pending ∧ ∀ job, job ∈ held rt → promise job ≠ p.

Lemma orphan_step rt ev p : wf rt → orphan p rt → orphan p (step rt ev).
Proof.
  intros Hwf [Hp Hfree]. destruct ev as [ty pl ts| |r]; simpl.
  - split; simpl.
    + by apply lookup_app_l_Some.
    + intros job. unfold held. simpl. rewrite app_assoc, elem_of_app.
      intros [Hjob|Hjob]; [by apply Hfree|].
      apply list_elem_of_singleton in Hjob as ->. simpl.
      apply lookup_lt_Some in Hp. lia.
  - split; [by rewrite flush_promises|].
    intros job Hjob. by apply Hfree, held_flush.
  - split; [|intros job Hjob; by eapply Hfree, held_resume].
    unfold resume. destruct (awaiting rt) as [fr|] eqn:Haw; simpl; [|done].
    assert (p ∉ promise <$> batch fr) as Hnb.
    { intros (job & -> & Hjob)%list_elem_of_fmap. apply (Hfree job); [|done].
      unfold held. rewrite Haw. apply elem_of_app. by left. }
    unfold resolve, reject. destruct r as [rows|err].
    + rewrite (forEach_settle_other (λ job i, Fulfilled (rows !! i))); [done|].
      rewrite (wf_creates _ Hwf fr Haw). intros Hin. apply Hnb.
      eapply elem_of_sublist; [done|]. apply fmap_sublist, sublist_filter.
    + by rewrite (forEach_settle_other (λ job _, Rejected err)).
Qed.

Lemma orphan_run evs : ∀ rt p, wf rt → orphan p rt → orphan p (run rt evs).
Proof.
  induction evs as [|ev evs IH]; intros rt p Hwf Horph; [done|].
  apply IH; [by apply wf_step|by apply orphan_step].
Qed.

(** *** Draining *)

Lemma filter_all {A} (P : A → Prop) `{!∀ x, Decision (P x)} (l : list A) :
  Forall P l → filter P l = l.
Proof.
  induction 1 as [|x l Hx Hl IH]; [done|].
  rewrite filter_cons_True by done. by rewrite IH.
Qed.

Lemma run_create_all reqs : ∀ rt,
  let rt' := run rt (create_all reqs) in
  ∃ jobs,
    queue (this rt') = queue (this rt) ++ jobs ∧
    length jobs = length reqs ∧
    Forall (λ j, type j = create) jobs ∧
    flushing (this rt') = flushing (this rt) ∧
    awaiting rt' = awaiting rt ∧
    submitted rt' = submitted rt.
Proof.
  induction reqs as [|[pl ts] reqs IH]; intros rt; cbv zeta.
  - exists []. simpl. by rewrite app_nil_r.
  - change (run rt (create_all ((pl, ts) :: reqs)))
      with (run (enqueue create pl ts rt).2 (create_all reqs)).
    destruct (IH (enqueue create pl ts rt).2) as (jobs & Hq & Hlen & Hall & Hfl & Haw & Hsub).
    exists (mkWriteJob create pl ts (length (promises rt)) :: jobs).
    rewrite Hq, Hfl, Haw, Hsub. simpl.
    rewrite <- app_assoc. repeat split; try done; [by f_equal|by constructor].
Qed.

(** A flush of a queue of creates. *)
Lemma flush_creates rt :
  flushing (this rt) = false →
  queue (this rt) ≠ [] →
  Forall (λ j, type j = create) (queue (this rt)) →
  flush rt
  = {| this := {| queue := drop BATCH_SIZE (queue (this rt)); flushing := true |};
       promises := promises rt;
       timers := timers rt;
       awaiting := Some (mkFrame (take BATCH_SIZE (queue (this rt)))
                                 (take BATCH_SIZE (queue (this rt))));
       submitted := submitted rt ++ [insert_query (take BATCH_SIZE (queue (this rt)))] |}.
Proof.
  intros Hfl Hne Hall. unfold flush. rewrite Hfl. simpl.
  rewrite bool_decide_eq_false_2 by (by intros ?%nil_length_inv).
  rewrite (filter_all _ (take BATCH_SIZE (queue (this rt)))) by by apply Forall_take.
  rewrite bool_decide_eq_true_2; [done|].
  destruct (queue (this rt)); [done|]. simpl. lia.
Qed.

(** One tick and the answer to its query, on a queue of creates. *)
Lemma cycle_creates rt r :
  flushing (this rt) = false →
  queue (this rt) ≠ [] →
  Forall (λ j, type j = create) (queue (this rt)) →
  let rt' := step (step rt Tick) (Response r) in
  in_flight (step rt Tick) = take BATCH_SIZE (queue (this rt)) ∧
  queue (this rt') = drop BATCH_SIZE (queue (this rt)) ∧
  flushing (this rt') = false ∧
  awaiting rt' = None ∧
  submitted rt' = submitted rt ++ [insert_query (take BATCH_SIZE (queue (this rt)))].
Proof.
  intros Hfl Hne Hall. simpl. rewrite flush_creates by done.
  by erewrite resume_awaiting by done.
Qed.

(** *** The claims *)

(** C1. What the code does with an intent that is not a create: the flush
    that drains it settles only the creates of its batch, so the promise of
    an update (or delete) is still pending once its batch has been
    processed with success, the queue no longer holds the job, and nothing
    that happens later settles the promise.  Shown on a batch of one create
    and one update whose query succeeds, and on a batch of a lone update,
    for which no query is sent at all. *)
Theorem non_create_intent_never_settles :
  let mixed := run new_WriteQueue
      [Enqueue create alice 1; Enqueue update bob 2; Tick;
       Response (Returned [alice_row])] in
  let lone := run new_WriteQueue [Enqueue update bob 2; Tick] in
  (promises mixed !! 0 = Some (Fulfilled (Some alice_row)) ∧
   promises mixed !! 1 = Some Pending ∧
   held mixed = [] ∧
   flushing (this mixed) = false ∧
   ∀ evs, promises (run mixed evs) !! 1 = Some Pending) ∧
  (promises lone !! 0 = Some Pending ∧
   held lone = [] ∧
   flushing (this lone) = false ∧
   submitted lone = [] ∧
   ∀ evs, promises (run lone evs) !! 0 = Some Pending).
Proof.
  cbv zeta. split.
  - repeat split; try reflexivity.
    intros evs. apply orphan_run.
    + apply wf_run, wf_new.
    + split; [reflexivity|]. intros job Hjob. by apply elem_of_nil in Hjob.
  - repeat split; try reflexivity.
    intros evs. apply orphan_run.
    + apply wf_run, wf_new.
    + split; [reflexivity|]. intros job Hjob. by apply elem_of_nil in Hjob.
Qed.

(** C2. When the query of the suspended flush succeeds with [rows], the
    promise of the n-th create of the batch, in the order of the queue, is
    fulfilled with [rows[n]], the n-th row returned, and keeps that value
    whatever happens later. *)
Theorem create_resolves_by_position rt fr rows n job :
  reachable rt →
  awaiting rt = Some fr →
  filter (λ j, type j = create) (batch fr) !! n = Some job →
  let rt' := resume (Returned rows) rt in
  promises rt' !! promise job = Some (Fulfilled (rows !! n)) ∧
  ∀ evs, promises (run rt' evs) !! promise job = Some (Fulfilled (rows !! n)).
Proof.
  intros Hwf%reachable_wf Haw Hn.
  pose proof Hwf as [_ _ Hcr Hnd Hpend].
  assert (job ∈ batch fr) as Hjob.
  { apply list_elem_of_lookup_2 in Hn. by apply list_elem_of_filter in Hn as [_ ?]. }
  assert (promises (resume (Returned rows) rt) !! promise job
          = Some (Fulfilled (rows !! n))) as Hres.
  { rewrite (resume_awaiting _ _ _ Haw). simpl. unfold resolve.
    rewrite (forEach_settle_at (λ job i, Fulfilled (rows !! i)) _ 0 _ n job); [done|..].
    - rewrite (Hcr fr Haw). eapply sublist_NoDup; [|apply fmap_sublist, sublist_filter].
      unfold held in Hnd. rewrite Haw, fmap_app in Hnd.
      by apply NoDup_app in Hnd as [? _].
    - by rewrite (Hcr fr Haw).
    - apply Hpend. unfold held. rewrite Haw. apply elem_of_app. by left. }
  split; [done|]. intros evs. by apply settled_run.
Qed.

(** C3. When the query of the suspended flush fails with [err], the
    promise of every job of the batch is rejected with [err] and stays so;
    the jobs of the batch are not put back into the queue, then or later,
    and no query is sent again; the timer stays registered and the flag is
    cleared, so that the next tick drains the head of the queue; and the
    jobs enqueued since are still in the queue, in order, their promises
    pending. *)
Theorem failed_batch_is_isolated rt fr err :
  reachable rt →
  awaiting rt = Some fr →
  let rt' := resume (Threw err) rt in
  (∀ job, job ∈ batch fr →
     promises rt' !! promise job = Some (Rejected err) ∧
     (job ∉ queue (this rt')) ∧
     (∀ evs, promises (run rt' evs) !! promise job = Some (Rejected err) ∧
             (job ∉ held (run rt' evs)))) ∧
  queue (this rt') = queue (this rt) ∧
  submitted rt' = submitted rt ∧
  awaiting rt' = None ∧
  timers rt' = [FLUSH_INTERVAL_MS] ∧
  flushing (this rt') = false ∧
  (∀ job, job ∈ queue (this rt) → promises rt' !! promise job = Some Pending) ∧
  (queue (this rt) ≠ [] →
   queue (this (flush rt')) = drop BATCH_SIZE (queue (this rt)) ∧
   take BATCH_SIZE (queue (this rt)) ++ queue (this (flush rt')) = queue (this rt)).
Proof.
  intros Hreach Haw. pose proof (reachable_wf _ Hreach) as Hwf.
  pose proof Hwf as [Htm _ _ Hnd Hpend].
  pose proof (wf_resume (Threw err) rt Hwf) as Hwf'.
  cbv zeta. rewrite (resume_awaiting _ _ _ Haw) in *.
  set (rt' := mkRuntime _ _ _ _ _) in *.
  unfold held in Hnd, Hpend. rewrite Haw in Hnd, Hpend. simpl in Hnd, Hpend.
  rewrite fmap_app in Hnd. apply NoDup_app in Hnd as (Hndb & Hdisj & _).
  assert (∀ job, job ∈ batch fr → promises rt' !! promise job = Some (Rejected err))
    as Hrej.
  { intros job Hjob. apply list_elem_of_lookup_1 in Hjob as Hn. destruct Hn as [n Hn].
    simpl. unfold reject.
    rewrite (forEach_settle_at (λ _ _, Rejected err) _ 0 _ n job); [done..|].
    apply Hpend, elem_of_app. by left. }
  split; [|repeat split; try done].
  - intros job Hjob. split; [by apply Hrej|]. split.
    + simpl. intros Hq. apply (Hdisj (promise job)); by apply list_elem_of_fmap_2.
    + intros evs.
      assert (promises (run rt' evs) !! promise job = Some (Rejected err)) as Hlater.
      { apply settled_run; [by apply Hrej|done]. }
      split; [done|]. intros Hheld.
      apply (wf_pending _ (wf_run evs rt' Hwf')) in Hheld. congruence.
  - intros job Hjob. apply (wf_pending _ Hwf'). unfold held. by simpl.
  - unfold flush. simpl.
    rewrite bool_decide_eq_false_2 by (by intros ?%nil_length_inv).
    by case_bool_decide.
  - unfold flush. simpl.
    rewrite bool_decide_eq_false_2 by (by intros ?%nil_length_inv).
    case_bool_decide; simpl; apply take_drop.
Qed.

(** C8. A flush does nothing when one is in progress or the queue is
    empty; otherwise it takes the first [BATCH_SIZE] = 100 jobs of the
    queue, or all of them when there are fewer, off the queue in one step;
    and 250 create-intents enqueued on a new queue are drained by three
    ticks in batches of 100, 100 and 50, after which the queue is empty and
    a further tick does nothing. *)
Theorem flush_batches rt reqs r1 r2 r3 :
  (flushing (this rt) = true ∨ queue (this rt) = [] → flush rt = rt) ∧
  (flushing (this rt) = false →
   queue (this rt) ≠ [] →
   let drained := take BATCH_SIZE (queue (this rt)) in
   BATCH_SIZE = 100 ∧
   0 < length drained ∧
   length drained ≤ BATCH_SIZE ∧
   queue (this (flush rt)) = drop BATCH_SIZE (queue (this rt)) ∧
   drained ++ queue (this (flush rt)) = queue (this rt) ∧
   (filter (λ j, type j = create) drained ≠ [] → in_flight (flush rt) = drained)) ∧
  (length reqs = 250 →
   let rt0 := run new_WriteQueue (create_all reqs) in
   let rt1 := step rt0 Tick in
   let rt2 := step (step rt1 (Response r1)) Tick in
   let rt3 := step (step rt2 (Response r2)) Tick in
   let rt4 := step rt3 (Response r3) in
   length (in_flight rt1) = 100 ∧
   length (in_flight rt2) = 100 ∧
   length (in_flight rt3) = 50 ∧
   in_flight rt1 ++ in_flight rt2 ++ in_flight rt3 = queue (this rt0) ∧
   length (submitted rt4) = 3 ∧
   queue (this rt4) = [] ∧
   awaiting rt4 = None ∧
   step rt4 Tick = rt4).
Proof.
  split; [|split].
  - intros [Hfl|Hq]; unfold flush.
    + by rewrite Hfl.
    + rewrite Hq. simpl. by rewrite orb_true_r.
  - intros Hfl Hne. cbv zeta. unfold flush, in_flight. rewrite Hfl. simpl.
    rewrite bool_decide_eq_false_2 by (by intros ?%nil_length_inv).
    split; [done|].
    assert (0 < length (take BATCH_SIZE (queue (this rt))) ≤ BATCH_SIZE) as [? ?].
    { rewrite length_take. unfold BATCH_SIZE.
      destruct (queue (this rt)) as [|j l]; [done|]. rewrite length_cons. lia. }
    split; [done|]. split; [done|].
    case_bool_decide as Hcr; simpl.
    + split; [done|]. split; [apply take_drop|done].
    + split; [done|]. split; [apply take_drop|]. intros Hne'.
      destruct (filter _ _); [done|]. simpl in Hcr. lia.
  - intros Hlen.
    destruct (run_create_all reqs new_WriteQueue) as (q & Hq & Hlenq & Hall & Hfl & Haw & Hsub).
    cbv zeta in *. simpl in Hq, Hfl, Haw, Hsub. rewrite Hlen in Hlenq.
    set (rt0 := run new_WriteQueue (create_all reqs)) in *.
    assert (∀ l : list WriteJob, 0 < length l → l ≠ []) as Hnil.
    { intros [|] ?; [simpl in *; lia|done]. }
    destruct (cycle_creates rt0 r1) as (Hb1 & Hq1 & Hfl1 & Haw1 & Hsub1);
      [done|apply Hnil; rewrite Hq; lia|by rewrite Hq|].
    set (rt1 := step (step rt0 Tick) (Response r1)) in *.
    destruct (cycle_creates rt1 r2) as (Hb2 & Hq2 & Hfl2 & Haw2 & Hsub2);
      [done
      |apply Hnil; rewrite Hq1, length_drop, Hq; unfold BATCH_SIZE; lia
      |rewrite Hq1, Hq; by apply Forall_drop|].
    set (rt2 := step (step rt1 Tick) (Response r2)) in *.
    destruct (cycle_creates rt2 r3) as (Hb3 & Hq3 & Hfl3 & Haw3 & Hsub3);
      [done
      |apply Hnil; rewrite Hq2, length_drop, Hq1, length_drop, Hq; unfold BATCH_SIZE; lia
      |rewrite Hq2, Hq1, Hq; by do 2 apply Forall_drop|].
    set (rt3 := step (step rt2 Tick) (Response r3)) in *.
    assert (queue (this rt3) = []) as Hempty.
    { apply nil_length_inv.
      rewrite Hq3, length_drop, Hq2, length_drop, Hq1, length_drop, Hq.
      unfold BATCH_SIZE. lia. }
    rewrite Hb1, Hb2, Hb3, Hq2, Hq1, Hq.
    rewrite !length_take, !length_drop, Hlenq. unfold BATCH_SIZE at 1 2 3 4 5 6.
    repeat split; try done.
    + rewrite (take_ge (drop _ (drop _ q))) by (rewrite !length_drop; unfold BATCH_SIZE; lia).
      by rewrite !take_drop.
    + rewrite Hsub3, Hsub2, Hsub1, Hsub. by rewrite !length_app.
    + change (step rt3 Tick) with (flush rt3). unfold flush.
      rewrite Hempty. simpl. by rewrite orb_true_r.
Qed.

(** *** The claims at concrete queues *)

Lemma create_resolves_by_position_witness :
  reachable three_in_flight ∧
  awaiting three_in_flight = Some three_frame ∧
  filter (λ j, type j = create) (batch three_frame) !! 1
    = Some (mkWriteJob create alice 3 2) ∧
  promises (resume (Returned [alice_row; carol_row]) three_in_flight) !! 2
    = Some (Fulfilled (Some carol_row)).
Proof.
  assert (reachable three_in_flight) as Hreach by (by eexists).
  split; [exact Hreach|]. split; [reflexivity|]. split; [reflexivity|].
  exact (proj1 (create_resolves_by_position three_in_flight three_frame
                  [alice_row; carol_row] 1 (mkWriteJob create alice 3 2)
                  Hreach eq_refl eq_refl)).
Defined.

Lemma failed_batch_is_isolated_witness :
  reachable three_in_flight ∧
  awaiting three_in_flight = Some three_frame ∧
  queue (this (resume (Threw unique_violation) three_in_flight)) = [] ∧
  flushing (this (resume (Threw unique_violation) three_in_flight)) = false.
Proof.
  assert (reachable three_in_flight) as Hreach by (by eexists).
  split; [exact Hreach|]. split; [reflexivity|].
  pose proof (failed_batch_is_isolated three_in_flight three_frame unique_violation
                Hreach eq_refl) as (_ & Hq & _ & _ & _ & Hfl & _).
  split; [exact Hq|exact Hfl].
Defined.

Lemma flush_batches_witness :
  let one := run new_WriteQueue [Enqueue create alice 1] in
  let reqs := replicate 250 (alice, 0%Z) in
  flush new_WriteQueue = new_WriteQueue ∧
  flushing (this one) = false ∧
  queue (this one) ≠ [] ∧
  length reqs = 250 ∧
  queue (this (flush one)) = drop BATCH_SIZE (queue (this one)) ∧
  length (in_flight (step (run new_WriteQueue (create_all reqs)) Tick)) = 100.
Proof.
  intros one reqs.
  pose proof (flush_batches new_WriteQueue reqs (Returned []) (Returned []) (Returned []))
    as (Hnoop & _ & _).
  pose proof (flush_batches one reqs (Returned []) (Returned []) (Returned []))
    as (_ & Hdrain & Hrun).
  split; [apply Hnoop; by right|].
  split; [reflexivity|]. split; [discriminate|]. split; [reflexivity|].
  split.
  - exact (proj1 (proj2 (proj2 (proj2 (Hdrain eq_refl ltac:(discriminate)))))).
  - exact (proj1 (Hrun eq_refl)).
Defined.

End QueueProps.

(** ** More on the circuit breaker *)

Module BreakerExtras.

Import Breaker BreakerProps.
Local Open Scope Z_scope.

(** Number of [open] events in a trace. *)
Definition is_emit_open (e : effect) : bool :=
  match e with emit ev => bool_decide (ev = "open") | _ => false end.
Definition open_events (tr : list effect) : nat :=
  length (List.filter is_emit_open tr).

(** [execute] from the point where [await fn()] has ended with [r]: the
    rest of the [try] block, or the [catch] block. *)
Definition after_await {W T : Type} (Date_now : W → Z) (r : completion T)
    (fallback : option (W → completion T * W)) : M (completion T) :=
  match r with
  | Returned result => bind onSuccess (λ _, ret (Returned result))
  | Threw err =>
      bind (onFailure Date_now)
        (λ _, match fallback with
              | Some fb => invoke call_fallback fb
              | None => ret (Threw err)
              end)
  end.

(** What holds of the fields of a breaker whatever calls it has served. *)
Record consistent (b : CircuitBreaker) : Prop := mkConsistent {
  failures_nonneg : 0 ≤ failures b;
  successCount_nonneg : 0 ≤ successCount b;
  successCount_idle : state b ≠ HALF_OPEN → successCount b = 0;
  closed_below_threshold : 0 < threshold b → state b = CLOSED → failures b < threshold b;
  probing_below_threshold :
    0 < successThreshold b → state b = HALF_OPEN → successCount b < successThreshold b
}.

(** The constructor parameters of two breakers are the same. *)
Definition same_config (b b' : CircuitBreaker) : Prop :=
  name b' = name b ∧ threshold b' = threshold b ∧
  timeout b' = timeout b ∧ successThreshold b' = successThreshold b.

Lemma open_events_app (tr1 tr2 : list effect) :
  open_events (tr1 ++ tr2) = (open_events tr1 + open_events tr2)%nat.
Proof. unfold open_events. by rewrite List.filter_app, length_app. Qed.

Section WithWorld.

Context {W : Type} (Date_now : W → Z).

Lemma onFailure_trace (s : Sys W) :
  trace (onFailure Date_now s).2
  = trace s ++ (if opens (this s)
                then [logger_error ("Circuit " +:+ name (this s) +:+ ": OPEN — failing fast");
                      emit "open"]
                else []).
Proof.
  destruct s as [b w tr]. unfold opens. run_methods.
  destruct (bool_decide (threshold b ≤ failures b + 1) || bool_decide (state b = HALF_OPEN));
    simpl; [by rewrite <- app_assoc|by rewrite app_nil_r].
Qed.

Lemma onSuccess_trace (s : Sys W) :
  trace (onSuccess s).2
  = trace s ++ (if closes (this s)
                then [logger_info ("Circuit " +:+ name (this s) +:+ ": CLOSED — recovered")]
                else []).
Proof.
  destruct s as [b w tr]. unfold closes. run_methods.
  destruct (decide (state b = HALF_OPEN)) as [Hh|Hh]; simpl.
  - rewrite (bool_decide_eq_true_2 _ Hh). simpl.
    destruct (bool_decide (successThreshold b ≤ successCount b + 1)); simpl;
      [done|by rewrite app_nil_r].
  - rewrite (bool_decide_eq_false_2 _ Hh). simpl. by rewrite app_nil_r.
Qed.

Lemma consistent_onFailure (s : Sys W) :
  consistent (this s) → consistent (this (onFailure Date_now s).2).
Proof.
  intros [Hf Hs Hidle Hcl Hpr].
  destruct (onFailure_this Date_now s) as (Ef & _ & Es & Ec & _ & Eth & _ & Est & _).
  cbv zeta in *. unfold opens in *.
  split; rewrite ?Ef, ?Es, ?Ec, ?Eth, ?Est;
    repeat case_bool_decide; simpl in *; try lia; try done; try (intros; lia);
    try (intros; congruence).
  all: intros; try (apply Hidle; congruence); try (apply Hpr; done).
Qed.

Lemma consistent_onSuccess (s : Sys W) :
  consistent (this s) → consistent (this (onSuccess s).2).
Proof.
  intros [Hf Hs Hidle Hcl Hpr].
  destruct (onSuccess_this s) as (Ef & _ & Es & Ec & _ & Eth & _ & Est & _).
  cbv zeta in *. unfold closes in *.
  split; rewrite ?Ef, ?Es, ?Ec, ?Eth, ?Est;
    repeat case_bool_decide; simpl in *; try lia; try done; try (intros; lia);
    try (intros; congruence).
  all: intros; try (apply Hidle; congruence).
Qed.

Section WithResult.

Context {T : Type}.
Implicit Types (fn : W → completion T * W) (fallback : option (W → completion T * W)).
Implicit Types (calls : list ((W → completion T * W) * option (W → completion T * W))).

(** [execute] in the Open state, [timeout] run out. *)
Lemma execute_elapsed_eq fn fallback (s : Sys W) :
  state (this s) = OPEN →
  timeout (this s) < Date_now (world s) - lastFailureTime (this s) →
  execute Date_now fn fallback s
  = attempt Date_now fn fallback
      (mkSys (set_state HALF_OPEN (this s)) (world s)
         (trace s ++ [logger_info ("Circuit " +:+ name (this s) +:+ ": HALF_OPEN — testing")])).
Proof.
  intros Hst Hlt. unfold execute, bind at 1. by rewrite gate_open_elapsed.
Qed.

(** [execute] in the Open state, within [timeout]. *)
Lemma execute_within_eq fn fallback (s : Sys W) :
  state (this s) = OPEN →
  Date_now (world s) - lastFailureTime (this s) ≤ timeout (this s) →
  execute Date_now fn fallback s
  = match fallback with
    | Some fb => ((fb (world s)).1,
                  mkSys (this s) (fb (world s)).2 (trace s ++ [call_fallback]))
    | None => (Threw (new_Error ("Circuit " +:+ name (this s) +:+ " is OPEN")), s)
    end.
Proof.
  intros Hst Hle. destruct s as [b w tr]. simpl in *. run_methods.
  destruct (decide (state b = OPEN)) as [_|]; [|done].
  rewrite (bool_decide_eq_false_2 (timeout b < Date_now w - lastFailureTime b)) by lia.
  destruct fallback as [fb|]; simpl; [|done]. by destruct (fb w).
Qed.

(** An attempt whose guarded call throws. *)
Lemma attempt_threw_eq fn fallback (s : Sys W) e w' :
  fn (world s) = (Threw e, w') →
  attempt Date_now fn fallback s
  = let s1 := (onFailure Date_now (mkSys (this s) w' (trace s ++ [call_fn]))).2 in
    match fallback with
    | Some fb => ((fb (world s1)).1,
                  mkSys (this s1) (fb (world s1)).2 (trace s1 ++ [call_fallback]))
    | None => (Threw e, s1)
    end.
Proof.
  intros Hfn. unfold attempt, bind at 1, invoke at 1. rewrite Hfn.
  unfold bind at 1. destruct (onFailure Date_now _) as [[] s1]. simpl.
  destruct fallback as [fb|]; [|done]. unfold invoke. by destruct (fb (world s1)).
Qed.

(** The three ways through [execute]. *)
Lemma execute_cases fn fallback (s : Sys W) :
  (state (this s) = OPEN ∧
   Date_now (world s) - lastFailureTime (this s) ≤ timeout (this s) ∧
   execute Date_now fn fallback s
   = match fallback with
     | Some fb => ((fb (world s)).1,
                   mkSys (this s) (fb (world s)).2 (trace s ++ [call_fallback]))
     | None => (Threw (new_Error ("Circuit " +:+ name (this s) +:+ " is OPEN")), s)
     end) ∨
  (∃ s1, this s1 = this s ∧ world s1 = world s ∧ trace s1 = trace s ∧
         state (this s) ≠ OPEN ∧
         execute Date_now fn fallback s = attempt Date_now fn fallback s1) ∨
  (∃ s1, this s1 = set_state HALF_OPEN (this s) ∧ world s1 = world s ∧
         trace s1 = trace s ++ [logger_info ("Circuit " +:+ name (this s)
                                             +:+ ": HALF_OPEN — testing")] ∧
         state (this s) = OPEN ∧
         execute Date_now fn fallback s = attempt Date_now fn fallback s1).
Proof.
  destruct (decide (state (this s) = OPEN)) as [Ho|Hn].
  - destruct (decide (timeout (this s) < Date_now (world s) - lastFailureTime (this s)))
      as [Hl|Hl].
    + right. right.
      exists (mkSys (set_state HALF_OPEN (this s)) (world s)
                (trace s ++ [logger_info ("Circuit " +:+ name (this s)
                                          +:+ ": HALF_OPEN — testing")])).
      repeat split; [done|]. by apply execute_elapsed_eq.
    + left. repeat split; [done|lia|]. apply execute_within_eq; [done|lia].
  - right. left. exists s. repeat split; [done|]. by apply execute_not_open.
Qed.

Lemma attempt_keeps fn fallback (s : Sys W) :
  consistent (this s) →
  consistent (this (attempt Date_now fn fallback s).2) ∧
  same_config (this s) (this (attempt Date_now fn fallback s).2).
Proof.
  intros Hc. destruct (fn (world s)) as [[v|e] w'] eqn:Hfn.
  - rewrite (attempt_returned _ _ _ _ _ _ Hfn). simpl.
    set (s1 := mkSys (this s) w' (trace s ++ [call_fn])).
    split; [by apply (consistent_onSuccess s1)|].
    destruct (onSuccess_this s1) as (_ & _ & _ & _ & ? & ? & ? & ? & _). done.
  - rewrite (attempt_threw _ _ _ _ _ _ Hfn).
    set (s1 := mkSys (this s) w' (trace s ++ [call_fn])).
    split; [by apply (consistent_onFailure s1)|].
    destruct (onFailure_this Date_now s1) as (_ & _ & _ & _ & ? & ? & ? & ? & _). done.
Qed.

Lemma execute_keeps fn fallback (s : Sys W) :
  consistent (this s) →
  consistent (this (execute Date_now fn fallback s).2) ∧
  same_config (this s) (this (execute Date_now fn fallback s).2).
Proof.
  intros Hc.
  destruct (execute_cases fn fallback s)
    as [(_ & _ & ->)|[(s1 & Hb & _ & _ & _ & ->)|(s1 & Hb & _ & _ & Ho & ->)]].
  - by destruct fallback.
  - rewrite <- Hb in *. by apply attempt_keeps.
  - assert (consistent (this s1)) as Hc1.
    { rewrite Hb. destruct Hc as [Hf Hs Hidle Hcl Hpr].
      assert (successCount (this s) = 0) as Hz by (apply Hidle; congruence).
      split; simpl; try done; try lia. }
    destruct (attempt_keeps fn fallback s1 Hc1) as [? (? & ? & ? & ?)].
    rewrite Hb in *. done.
Qed.

Lemma execute_all_keeps calls : ∀ s : Sys W,
  consistent (this s) →
  consistent (this (execute_all Date_now calls s).2) ∧
  same_config (this s) (this (execute_all Date_now calls s).2).
Proof.
  induction calls as [|[fn fallback] rest IH]; intros s Hc; [done|].
  rewrite execute_all_cons.
  destruct (execute_keeps fn fallback s Hc) as [Hc1 (? & ? & ? & ?)].
  destruct (IH _ Hc1) as [Hc2 (? & ? & ? & ?)].
  split; [done|]. unfold same_config. repeat split; congruence.
Qed.

(** X1. The breaker after [execute] does not depend on the fallback: what the
    fallback does, and whether it throws, is not counted. *)
Theorem fallback_not_counted fn fallback (s : Sys W) :
  this (execute Date_now fn fallback s).2 = this (execute Date_now fn None s).2.
Proof.
  destruct (decide (state (this s) = OPEN)) as [Ho|Hn].
  - destruct (decide (timeout (this s) < Date_now (world s) - lastFailureTime (this s)))
      as [Hl|Hl].
    + rewrite !execute_elapsed_eq by done.
      set (s1 := mkSys _ _ _). destruct (fn (world s1)) as [[v|e] w'] eqn:Hfn.
      * by rewrite !(attempt_returned _ _ _ _ _ _ Hfn).
      * by rewrite !(attempt_threw _ _ _ _ _ _ Hfn).
    + rewrite !execute_within_eq by (done || lia). by destruct fallback.
  - rewrite !execute_not_open by done.
    destruct (fn (world s)) as [[v|e] w'] eqn:Hfn.
    * by rewrite !(attempt_returned _ _ _ _ _ _ Hfn).
    * by rewrite !(attempt_threw _ _ _ _ _ _ Hfn).
Qed.

(** X2. With a fallback, [execute] returns what the fallback returns when
    the call is skipped (breaker Open within [timeout]); otherwise it
    returns the value of the guarded function when that returned, and what
    the fallback returns, on the world the failed call left, when it threw.
    So neither the error of the guarded function nor the open-circuit error
    gets to the caller, and a fallback that never throws makes [execute]
    never throw. *)
Theorem execute_with_fallback fn fb (s : Sys W) :
  let out := execute Date_now fn (Some fb) s in
  out.1
  = (if bool_decide (state (this s) = OPEN ∧
                     Date_now (world s) - lastFailureTime (this s) ≤ timeout (this s))
     then (fb (world s)).1
     else match fn (world s) with
          | (Returned v, _) => Returned v
          | (Threw _, w') => (fb w').1
          end) ∧
  ((∀ w, ∃ v, (fb w).1 = Returned v) → ∃ v, out.1 = Returned v).
Proof.
  cbv zeta.
  assert (∀ s1, world s1 = world s →
            (attempt Date_now fn (Some fb) s1).1
            = match fn (world s) with
              | (Returned v, _) => Returned v
              | (Threw _, w') => (fb w').1
              end) as Hatt.
  { intros s1 Hw. rewrite <- Hw. destruct (fn (world s1)) as [[v|e] w'] eqn:Hfn.
    - by rewrite (attempt_returned _ _ _ _ _ _ Hfn).
    - rewrite (attempt_threw_eq _ _ _ _ _ Hfn). cbv zeta. cbn [fst].
      by destruct (onFailure_this Date_now (mkSys (this s1) w' (trace s1 ++ [call_fn])))
        as (_ & _ & _ & _ & _ & _ & _ & _ & -> & _). }
  assert ((execute Date_now fn (Some fb) s).1
          = (if bool_decide (state (this s) = OPEN ∧
                             Date_now (world s) - lastFailureTime (this s)
                             ≤ timeout (this s))
             then (fb (world s)).1
             else match fn (world s) with
                  | (Returned v, _) => Returned v
                  | (Threw _, w') => (fb w').1
                  end)) as Hout.
  { destruct (decide (state (this s) = OPEN)) as [Ho|Hn].
    - destruct (decide (timeout (this s) < Date_now (world s) - lastFailureTime (this s)))
        as [Hl|Hl].
      + rewrite bool_decide_eq_false_2 by (intros [_ ?]; lia).
        rewrite execute_elapsed_eq by done. by apply Hatt.
      + rewrite bool_decide_eq_true_2 by (split; [done|lia]).
        rewrite execute_within_eq; [done|done|lia].
    - rewrite bool_decide_eq_false_2 by (by intros [? _]).
      rewrite execute_not_open by done. by apply Hatt. }
  split; [exact Hout|]. intros Htotal. rewrite Hout.
  case_bool_decide; [apply Htotal|].
  destruct (fn (world s)) as [[v|e] w']; [by eexists|apply Htotal].
Qed.

(** X3. A breaker made by the constructor, after any calls of [execute]: the
    constructor parameters are as given, the counters are not negative,
    [successCount] is 0 outside the HalfOpen state, a Closed breaker has
    counted fewer failures than a positive [threshold], and a HalfOpen one
    fewer successes than a positive [successThreshold]. *)
Theorem breaker_stays_consistent nm th tm sth calls (w : W) (tr : list effect) :
  let b := this (execute_all Date_now calls
                   (mkSys (new_CircuitBreaker nm th tm sth) w tr)).2 in
  same_config (new_CircuitBreaker nm th tm sth) b ∧ consistent b.
Proof.
  cbv zeta.
  destruct (execute_all_keeps calls (mkSys (new_CircuitBreaker nm th tm sth) w tr)) as [? ?];
    [|done].
  split; simpl; done.
Qed.

(** When no other call of the breaker runs during the [await], the attempt
    is the call of the guarded function followed by [after_await]. *)
Lemma attempt_after_await fn fallback (s : Sys W) :
  attempt Date_now fn fallback s
  = after_await Date_now (fn (world s)).1 fallback
      (mkSys (this s) (fn (world s)).2 (trace s ++ [call_fn])).
Proof.
  unfold attempt, after_await, bind at 1, invoke at 1.
  by destruct (fn (world s)) as [[v|e] w'].
Qed.

Lemma after_await_returned (v : T) fallback (s : Sys W) :
  (after_await Date_now (Returned v) fallback s).2 = (onSuccess s).2.
Proof. unfold after_await, bind. by destruct (onSuccess s). Qed.

Lemma after_await_threw e fallback (s : Sys W) :
  (after_await Date_now (Threw e) fallback s).2
  = let s1 := (onFailure Date_now s).2 in
    match fallback with
    | Some fb => mkSys (this s1) (fb (world s1)).2 (trace s1 ++ [call_fallback])
    | None => s1
    end.
Proof.
  unfold after_await, bind. destruct (onFailure Date_now s) as [[] s1]. simpl.
  destruct fallback as [fb|]; [|done]. unfold invoke. by destruct (fb (world s1)).
Qed.

(** X4. The [open] events of a call of [execute], part by part, each part
    on the state of the breaker that it finds.  The part before the
    [await] emits none, whether the call is skipped or let through.  The
    part after the [await] emits none when the guarded function returned;
    when it threw, it emits exactly one and leaves the breaker Open if the
    failure brings [failures] to [threshold] or the state is HalfOpen, and
    emits none and leaves the state as it is otherwise. *)
Theorem open_event_on_trip (r : completion T) fallback (s : Sys W) :
  open_events (trace (gate Date_now fallback s).2) = open_events (trace s) ∧
  (let s' := (after_await Date_now r fallback s).2 in
   match r with
   | Returned _ => open_events (trace s') = open_events (trace s)
   | Threw _ =>
       if opens (this s)
       then open_events (trace s') = S (open_events (trace s)) ∧ state (this s') = OPEN
       else open_events (trace s') = open_events (trace s) ∧
            state (this s') = state (this s)
   end).
Proof.
  split.
  - destruct (decide (state (this s) = OPEN)) as [Ho|Hn].
    + destruct (decide (timeout (this s) < Date_now (world s) - lastFailureTime (this s)))
        as [Hl|Hl].
      * rewrite gate_open_elapsed by done. simpl.
        rewrite open_events_app. unfold open_events. simpl. lia.
      * destruct s as [b w tr]. simpl in *. run_methods.
        destruct (decide (state b = OPEN)) as [_|]; [|done].
        rewrite (bool_decide_eq_false_2 (timeout b < Date_now w - lastFailureTime b)) by lia.
        destruct fallback as [fb|]; simpl; [|done]. destruct (fb w). simpl.
        rewrite open_events_app. unfold open_events. simpl. lia.
    + by rewrite gate_not_open.
  - destruct r as [v|e]; cbv zeta.
    + rewrite after_await_returned, (onSuccess_trace s), open_events_app.
      destruct (closes (this s)); unfold open_events; simpl; lia.
    + rewrite after_await_threw. cbv zeta.
      pose proof (onFailure_trace s) as Htr.
      pose proof (onFailure_this Date_now s) as (_ & _ & Hst & _). cbv zeta in Hst.
      revert Hst Htr. destruct (opens (this s)); intros Hst Htr;
        destruct fallback as [fb|]; simpl; rewrite Htr, ?open_events_app;
        unfold open_events; simpl; (split; [lia|done]).
Qed.

End WithResult.

End WithWorld.

Lemma execute_with_fallback_witness :
  let fb (w : Z) : completion nat * Z := (Returned 0%nat, w) in
  (∀ w, ∃ v, (fb w).1 = Returned v) ∧
  ∃ v, (execute (λ w, w) down (Some fb) (mkSys dbCircuit 0 [])).1 = Returned v.
Proof.
  intros fb.
  assert (∀ w, ∃ v, (fb w).1 = Returned v) as Htotal by (intros w; by eexists).
  split; [exact Htotal|].
  exact (proj2 (execute_with_fallback (λ w, w) down fb (mkSys dbCircuit 0 [])) Htotal).
Defined.

End BreakerExtras.

(** ** Properties of the shard routing *)

From Stdlib Require Import Zquot.

Module DbProps.

Import Db.
Local Open Scope Z_scope.

Lemma rem_2_cases (a : Z) :
  Z.rem a 2 = (if Z.odd a then Z.sgn a else 0).
Proof. apply Zquot.Zrem_odd. Qed.

Lemma getReadShard_unrouted (userId : Z) :
  userId < 0 → Z.odd userId = true → getReadShard userId = None.
Proof.
  intros Hneg Hodd. unfold getReadShard, index. simpl length.
  change (Z.of_nat 2) with 2. rewrite rem_2_cases, Hodd, Z.sgn_neg by done. done.
Qed.

(** X8. Routing is undefined exactly for the negative odd ids, for which the
    remainder is -1; for every other id both routes are defined, and the
    read route is the replica of the write route. *)
Theorem shard_routing (userId : Z) :
  (getWriteShard userId = None ↔ userId < 0 ∧ Z.odd userId = true) ∧
  (getReadShard userId = None ↔ userId < 0 ∧ Z.odd userId = true) ∧
  (0 ≤ userId ∨ Z.odd userId = false →
   ∃ w r, getWriteShard userId = Some w ∧ getReadShard userId = Some r ∧
          host r = host w +:+ "-replica" ∧
          (w = mkPool "pg-shard-0" "postgres" "postgres" "postgres" 20
             ↔ Z.odd userId = false)).
Proof.
  unfold getWriteShard, getReadShard, index. simpl length.
  change (Z.of_nat 2) with 2. rewrite rem_2_cases.
  destruct (Z.odd userId) eqn:Hodd.
  - destruct (Z.sgn_spec userId) as [[Hs ->]|[[Hs ->]|[Hs ->]]]; simpl.
    + split; [split; [done|lia]|]. split; [split; [done|lia]|].
      intros _. eexists _, _. repeat split; done.
    + subst userId. done.
    + split; [split; [intros _; split; [lia|done]|done]|].
      split; [split; [intros _; split; [lia|done]|done]|].
      intros [?|?]; [lia|done].
  - simpl. split; [split; [done|by intros [? ?]]|].
    split; [split; [done|by intros [? ?]]|].
    intros _. eexists _, _. repeat split; done.
Qed.

(** X9. The reconnect delay grows by 50 ms a retry and stays at 2000 ms from
    the 40th retry on; it never decreases with the number of retries. *)
Theorem reconnectStrategy_capped (r r' : Z) :
  reconnectStrategy r ≤ 2000 ∧
  (r ≤ 40 → reconnectStrategy r = r * 50) ∧
  (40 ≤ r → reconnectStrategy r = 2000) ∧
  (r ≤ r' → reconnectStrategy r ≤ reconnectStrategy r').
Proof. unfold reconnectStrategy. lia. Qed.

Lemma shard_routing_witness :
  (0 ≤ 7 ∨ Z.odd 7 = false) ∧
  (∃ w r, getWriteShard 7 = Some w ∧ getReadShard 7 = Some r ∧
          host r = host w +:+ "-replica") ∧
  getReadShard (-7) = None.
Proof.
  assert (0 ≤ 7) as Hpos by lia.
  split; [by left|].
  destruct (shard_routing 7) as (_ & _ & H).
  destruct (shard_routing (-7)) as (_ & H' & _).
  split; [|apply H'; split; [lia|reflexivity]].
  destruct (H (or_introl Hpos)) as (w & r & Hw & Hr & Hhost & _).
  by exists w, r.
Defined.

Lemma reconnectStrategy_capped_witness :
  3 ≤ 40 ∧ 40 ≤ 100 ∧ 3 ≤ 100 ∧
  reconnectStrategy 3 = 150 ∧ reconnectStrategy 100 = 2000.
Proof.
  destruct (reconnectStrategy_capped 3 100) as (_ & H1 & _ & _).
  destruct (reconnectStrategy_capped 100 100) as (_ & _ & H2 & _).
  split; [lia|]. split; [lia|]. split; [lia|].
  split; [apply H1; lia|apply H2; lia].
Defined.

End DbProps.

(** ** Properties of the cache helpers *)

Module HelperProps.

Import Breaker BreakerProps BreakerExtras Helper.
Local Open Scope Z_scope.

(** X7. Two safe integers (at most [Number.MAX_SAFE_INTEGER] in
    magnitude), which the language prints in plain decimal digits, with a
    minus sign when negative, have different cache keys when they
    differ. *)
Theorem userKey_inj (Number_toString : Z → string) (a b : Z) :
  (∀ n, Z.abs n ≤ MAX_SAFE_INTEGER → Number_toString n = pretty n) →
  Z.abs a ≤ MAX_SAFE_INTEGER →
  Z.abs b ≤ MAX_SAFE_INTEGER →
  userKey Number_toString a = userKey Number_toString b → a = b.
Proof.
  intros Hprint Ha Hb. unfold userKey. rewrite !Hprint by done.
  intros H. apply (inj pretty). simpl in H. by injection H.
Qed.

Section Cache.

Context {W T V : Type} (Date_now : W → Z).
Context (redis_get : string → W → completion (option string) * W).
Context (redis_setEx : string → Z → string → W → completion string * W).
Context (JSON_parse : string → completion T).
Context (JSON_stringify : V → completion string).

(** X5. The cache helpers never throw, whatever Redis, the parser and the
    breaker do: a failure is answered with [null] or [undefined]; and
    while the Redis breaker is Open within its [timeout] they answer so
    without a command being sent to Redis. *)
Theorem cache_helpers_never_throw key (value : V) ttl (s : Sys W) :
  (∃ v, (cacheGetWithCircuit Date_now redis_get JSON_parse key s).1 = Returned v) ∧
  (∃ v, (cacheSetWithCircuit Date_now redis_setEx JSON_stringify key value ttl s).1
        = Returned v) ∧
  (state (this s) = OPEN →
   Date_now (world s) - lastFailureTime (this s) ≤ timeout (this s) →
   cacheGetWithCircuit Date_now redis_get JSON_parse key s
   = (Returned None, mkSys (this s) (world s) (trace s ++ [call_fallback])) ∧
   cacheSetWithCircuit Date_now redis_setEx JSON_stringify key value ttl s
   = (Returned None, mkSys (this s) (world s) (trace s ++ [call_fallback]))).
Proof.
  unfold cacheGetWithCircuit, cacheSetWithCircuit. split; [|split].
  - destruct (execute_cases Date_now (cacheGet_fn redis_get JSON_parse key)
                (Some cacheGet_fallback) s)
      as [(_ & _ & ->)|[(s1 & _ & _ & _ & _ & ->)|(s1 & _ & _ & _ & _ & ->)]];
      [by eexists|..].
    all: destruct (cacheGet_fn redis_get JSON_parse key (world s1)) as [[v|e] w'] eqn:Hfn;
      [rewrite (attempt_returned _ _ _ _ _ _ Hfn)
      |rewrite (attempt_threw_eq _ _ _ _ _ _ Hfn)]; by eexists.
  - destruct (execute_cases Date_now
                (cacheSet_fn redis_setEx JSON_stringify key value (default CACHE_TTL ttl))
                (Some cacheSet_fallback) s)
      as [(_ & _ & ->)|[(s1 & _ & _ & _ & _ & ->)|(s1 & _ & _ & _ & _ & ->)]];
      [by eexists|..].
    all: destruct (cacheSet_fn redis_setEx JSON_stringify key value
                     (default CACHE_TTL ttl) (world s1)) as [[v|e] w'] eqn:Hfn;
      [rewrite (attempt_returned _ _ _ _ _ _ Hfn)
      |rewrite (attempt_threw_eq _ _ _ _ _ _ Hfn)]; by eexists.
  - intros Hst Hle. by rewrite !execute_within_eq.
Qed.

(** X6. A cached text that does not parse counts as a failure of Redis: when
    every lookup of [key] yields such a text, [threshold] lookups in a row
    on a Closed breaker with no failure counted open it, though Redis
    answered each time. *)
Theorem unparsable_entry_opens_breaker key (s : Sys W) :
  state (this s) = CLOSED →
  failures (this s) = 0 →
  0 < threshold (this s) →
  (∀ w, ∃ text w', redis_get key w = (Returned (Some text), w') ∧ text ≠ "" ∧
                   ∃ e, JSON_parse text = Threw e) →
  let lookups := replicate (Z.to_nat (threshold (this s)))
                   (cacheGet_fn redis_get JSON_parse key,
                    Some (cacheGet_fallback (W := W) (T := T))) in
  state (this (execute_all Date_now lookups s).2) = OPEN.
Proof.
  intros Hst Hf Hth Hbad lookups.
  assert (always_fails (cacheGet_fn redis_get JSON_parse key)) as Hfail.
  { intros w. destruct (Hbad w) as (text & w' & Hget & Hne & e & Hparse).
    exists e, w'. unfold cacheGet_fn. rewrite Hget.
    destruct (decide (text = "")); [done|]. by rewrite Hparse. }
  destruct (closed_failures_run Date_now lookups s Hst) as [_ Hopen].
  - subst lookups. destruct (Z.to_nat (threshold (this s))) eqn:Hn; [lia|done].
  - subst lookups. apply Forall_replicate. done.
  - subst lookups. rewrite length_replicate. lia.
  - cbv zeta in Hopen. rewrite Hopen. subst lookups. rewrite length_replicate.
    rewrite bool_decide_eq_true_2; [done|lia].
Qed.

End Cache.

Lemma cache_helpers_never_throw_witness :
  let redis_get (key : string) (w : Z) : completion (option string) * Z :=
    (Threw (mkJsError "Error" "connect ECONNREFUSED" (Some "ECONNREFUSED")), w + 5) in
  let redis_setEx (key : string) (ttl : Z) (text : string) (w : Z)
    : completion string * Z := (Returned "OK", w + 1) in
  let s := mkSys tripped 100 [] in
  state (this s) = OPEN ∧
  world s - lastFailureTime (this s) ≤ timeout (this s) ∧
  cacheGetWithCircuit (T := nat) (λ w, w) redis_get (λ _, Returned 1%nat) "u:7" s
  = (Returned None, mkSys tripped 100 [call_fallback]).
Proof.
  intros redis_get redis_setEx s.
  assert (world s - lastFailureTime (this s) ≤ timeout (this s)) as Hle by (simpl; lia).
  split; [reflexivity|]. split; [exact Hle|].
  destruct (cache_helpers_never_throw (T := nat) (V := nat) (λ w, w) redis_get redis_setEx
              (λ _, Returned 1%nat) (λ _, Returned "1") "u:7" 1%nat None s)
    as (_ & _ & H).
  exact (proj1 (H eq_refl Hle)).
Defined.

Lemma unparsable_entry_opens_breaker_witness :
  let redis_get (key : string) (w : Z) : completion (option string) * Z :=
    (Returned (Some "{oops"), w + 1) in
  let JSON_parse (text : string) : completion nat :=
    Threw (mkJsError "SyntaxError" "Unexpected token o in JSON at position 1" None) in
  let s := mkSys redisCircuit 0 [] in
  state (this s) = CLOSED ∧
  failures (this s) = 0 ∧
  0 < threshold (this s) ∧
  state (this (execute_all (λ w, w)
                 (replicate 5 (cacheGet_fn redis_get JSON_parse "u:7",
                               Some (cacheGet_fallback (W := Z) (T := nat)))) s).2)
  = OPEN.
Proof.
  intros redis_get JSON_parse s.
  assert (0 < threshold (this s)) as Hth by (simpl; lia).
  split; [reflexivity|]. split; [reflexivity|]. split; [exact Hth|].
  apply (unparsable_entry_opens_breaker (λ w, w) redis_get JSON_parse "u:7" s
           eq_refl eq_refl Hth).
  intros w. eexists _, _. split; [reflexivity|]. split; [discriminate|].
  eexists. reflexivity.
Defined.

Lemma userKey_inj_witness :
  (∀ n, Z.abs n ≤ MAX_SAFE_INTEGER → pretty n = pretty n) ∧
  Z.abs (-7) ≤ MAX_SAFE_INTEGER ∧
  userKey pretty (-7) = "u:-7" ∧
  -7 = -7.
Proof.
  assert (Z.abs (-7) ≤ MAX_SAFE_INTEGER) as Hsafe by (unfold MAX_SAFE_INTEGER; lia).
  split; [done|]. split; [exact Hsafe|]. split; [reflexivity|].
  exact (userKey_inj pretty (-7) (-7) (λ n _, eq_refl) Hsafe Hsafe eq_refl).
Defined.

End HelperProps.

(** ** More on the batching write queue *)

Module QueueExtras.

Import Queue QueueHistory QueueProps.

(** *** What the answer to the query does to the promises *)

Lemma resume_rejects rt fr err job :
  wf rt → awaiting rt = Some fr → job ∈ batch fr →
  promises (resume (Threw err) rt) !! promise job = Some (Rejected err).
Proof.
  intros [_ _ _ Hnd Hpend] Haw Hjob.
  unfold held in Hnd, Hpend. rewrite Haw in Hnd, Hpend. simpl in Hnd, Hpend.
  rewrite fmap_app in Hnd. apply NoDup_app in Hnd as (Hndb & _ & _).
  apply list_elem_of_lookup_1 in Hjob as Hn. destruct Hn as [n Hn].
  rewrite (resume_awaiting _ _ _ Haw). simpl. unfold reject.
  rewrite (forEach_settle_at (λ _ _, Rejected err) _ 0 _ n job); [done..|].
  apply Hpend, elem_of_app. by left.
Qed.

Lemma resume_fulfils rt fr rows n job :
  wf rt → awaiting rt = Some fr → creates fr !! n = Some job →
  promises (resume (Returned rows) rt) !! promise job = Some (Fulfilled (rows !! n)).
Proof.
  intros [_ _ Hcr Hnd Hpend] Haw Hn.
  unfold held in Hnd, Hpend. rewrite Haw in Hnd, Hpend. simpl in Hnd, Hpend.
  rewrite fmap_app in Hnd. apply NoDup_app in Hnd as (Hndb & _ & _).
  assert (job ∈ batch fr) as Hjob.
  { apply list_elem_of_lookup_2 in Hn. rewrite (Hcr fr Haw) in Hn.
    by apply list_elem_of_filter in Hn as [_ ?]. }
  rewrite (resume_awaiting _ _ _ Haw). simpl. unfold resolve.
  rewrite (forEach_settle_at (λ job i, Fulfilled (rows !! i)) _ 0 _ n job); [done|..].
  - rewrite (Hcr fr Haw). eapply sublist_NoDup; [exact Hndb|].
    apply fmap_sublist, sublist_filter.
  - done.
  - apply Hpend, elem_of_app. by left.
Qed.

(** *** The order in which jobs leave the queue *)

Lemma flush_queue rt :
  ∃ k, queue (this (flush rt)) = drop k (queue (this rt)) ∧
       (k = 0 ∨ k = BATCH_SIZE).
Proof.
  unfold flush. destruct (flushing (this rt) || _); [by exists 0; split; [|left]|].
  exists BATCH_SIZE. split; [by case_bool_decide|by right].
Qed.

Lemma taken_step rt ev :
  match ev with
  | Enqueue ty pl ts =>
      taken rt ev = [] ∧
      queue (this (step rt ev))
      = queue (this rt) ++ [mkWriteJob ty pl ts (length (promises rt))] ∧
      length (promises (step rt ev)) = S (length (promises rt))
  | _ =>
      taken rt ev ++ queue (this (step rt ev)) = queue (this rt) ∧
      length (promises (step rt ev)) = length (promises rt)
  end.
Proof.
  unfold taken. destruct ev as [ty pl ts| |r]; simpl.
  - rewrite !length_app. simpl. split; [|split; [done|lia]].
    replace (length (queue (this rt)) - (length (queue (this rt)) + 1)) with 0 by lia.
    done.
  - rewrite flush_promises. split; [|done].
    destruct (flush_queue rt) as (k & -> & Hk).
    rewrite length_drop.
    replace (length (queue (this rt)) - (length (queue (this rt)) - k))
      with (min k (length (queue (this rt)))) by lia.
    assert (take (min k (length (queue (this rt)))) (queue (this rt))
            = take k (queue (this rt))) as ->.
    { destruct (decide (k ≤ length (queue (this rt)))).
      - by rewrite Nat.min_l.
      - rewrite Nat.min_r by lia. rewrite !take_ge; [done|lia..]. }
    apply take_drop.
  - unfold resume. destruct (awaiting rt) as [fr|]; simpl.
    + rewrite Nat.sub_diag. split; [done|].
      unfold resolve, reject. destruct r.
      * apply (forEach_settle_length (λ job i, Fulfilled (v !! i))).
      * apply (forEach_settle_length (λ job _, Rejected e)).
    + by rewrite Nat.sub_diag.
Qed.

Lemma drained_run evs : ∀ rt,
  drained rt evs ++ queue (this (run rt evs))
  = queue (this rt) ++ jobs_of evs (length (promises rt)).
Proof.
  induction evs as [|ev evs IH]; intros rt; simpl.
  - by rewrite app_nil_r.
  - rewrite <- app_assoc.
    change (foldl step (step rt ev) evs) with (run (step rt ev) evs).
    rewrite IH. pose proof (taken_step rt ev) as Hstep.
    destruct ev as [ty pl ts| |r].
    + destruct Hstep as (-> & -> & ->). simpl. by rewrite <- app_assoc.
    + destruct Hstep as (Hq & ->). by rewrite app_assoc, Hq.
    + destruct Hstep as (Hq & ->). by rewrite app_assoc, Hq.
Qed.

(** X13. The jobs that a run has taken off the queue, followed by those still
    in the queue, are the jobs that were enqueued, each once, in the order
    in which they were enqueued and with promises numbered from 0. *)
Theorem drained_in_order (evs : list event) :
  drained new_WriteQueue evs ++ queue (this (run new_WriteQueue evs)) = jobs_of evs 0.
Proof. apply (drained_run evs new_WriteQueue). Qed.

(** X14. With no flush in progress, after [k] ticks, each followed by the
    answer to its query, the first [100 * k] jobs have left the queue; so
    the queue is empty once [100 * k] is at least its length, whatever the
    kinds of the jobs and the answers are, and no flush is left in
    progress. *)
Theorem cycles_drain (rs : list (completion (list User))) : ∀ rt,
  flushing (this rt) = false →
  queue (this (run rt (cycles rs))) = drop (BATCH_SIZE * length rs) (queue (this rt)) ∧
  flushing (this (run rt (cycles rs))) = false ∧
  (length (queue (this rt)) ≤ BATCH_SIZE * length rs →
   queue (this (run rt (cycles rs))) = []).
Proof.
  assert (∀ rt, flushing (this rt) = false →
            queue (this (run rt (cycles rs)))
            = drop (BATCH_SIZE * length rs) (queue (this rt)) ∧
            flushing (this (run rt (cycles rs))) = false) as Hmain.
  { induction rs as [|r rs IH]; intros rt Hfl.
    - change (length []) with 0. by rewrite Nat.mul_0_r.
    - change (run rt (cycles (r :: rs)))
        with (run (resume r (flush rt)) (cycles rs)).
      assert (queue (this (resume r (flush rt))) = drop BATCH_SIZE (queue (this rt))
              ∧ flushing (this (resume r (flush rt))) = false) as [Hq Hfl'].
      { unfold flush. rewrite Hfl. simpl. case_bool_decide as Hlen.
        - apply nil_length_inv in Hlen. rewrite Hlen.
          unfold resume. destruct (awaiting rt); simpl; by rewrite ?Hlen, ?Hfl.
        - case_bool_decide; unfold resume; simpl; [done|].
          destruct (awaiting rt); simpl; done. }
      destruct (IH _ Hfl') as [-> ->]. rewrite Hq, drop_drop.
      split; [|done]. f_equal. rewrite length_cons. lia. }
  intros rt Hfl. destruct (Hmain rt Hfl) as [Hq Hfl']. split; [done|]. split; [done|].
  intros Hlen. rewrite Hq. by apply drop_ge.
Qed.

(** X15. Every state the queue gets into keeps its invariant: the timer is
    registered, the flag is set exactly while a flush is suspended, and
    the jobs in the queue or in flight have distinct promises, all still
    pending. *)
Theorem reachable_invariant (evs : list event) : wf (run new_WriteQueue evs).
Proof. apply wf_run, wf_new. Qed.

(** X16. A promise that has been fulfilled or rejected keeps that outcome in
    every later state: it is settled once. *)
Theorem promise_settles_once rt p st evs :
  promises rt !! p = Some st → st ≠ Pending →
  promises (run rt evs) !! p = Some st.
Proof. intros Hp Hst. by apply settled_run. Qed.


(** *** The properties at concrete queues *)

Lemma cycles_drain_witness :
  flushing (this (run new_WriteQueue [Enqueue update bob 2; Enqueue create alice 3])) = false ∧
  queue (this (run (run new_WriteQueue [Enqueue update bob 2; Enqueue create alice 3])
                 (cycles [Threw unique_violation]))) = [].
Proof.
  split; [reflexivity|].
  refine (proj2 (proj2 (cycles_drain [Threw unique_violation]
            (run new_WriteQueue [Enqueue update bob 2; Enqueue create alice 3]) eq_refl)) _).
  simpl. unfold BATCH_SIZE. lia.
Defined.

Lemma promise_settles_once_witness :
  promises (resume (Threw unique_violation) three_in_flight) !! 1
    = Some (Rejected unique_violation) ∧
  Rejected unique_violation ≠ Pending ∧
  promises (run (resume (Threw unique_violation) three_in_flight)
              [Enqueue create alice 4; Tick; Response (Returned [alice_row])]) !! 1
    = Some (Rejected unique_violation).
Proof.
  split; [reflexivity|]. split; [discriminate|].
  apply (promise_settles_once _ 1 (Rejected unique_violation)); [reflexivity|discriminate].
Defined.


End QueueExtras.

(** ** Properties of the route handlers *)

Module RoutesProps.

Import Breaker BreakerProps BreakerExtras Queue QueueProps QueueExtras Db Helper Routes.
Local Open Scope Z_scope.

(** X11. When the INSERT of a batch fails with the unique-violation code
    23505, [POST /api/users] answers 409 [Email taken] to the request of
    every job of that batch, the duplicate or not, and counts one error
    for each. *)
Theorem post_users_conflict_for_whole_batch rt fr err job m :
  reachable rt →
  awaiting rt = Some fr →
  err_code err = Some "23505" →
  job ∈ batch fr →
  ∃ st, promises (resume (Threw err) rt) !! promise job = Some st ∧
        post_users_settled st m = Some (json 409 (error "Email taken"), errors_incr m).
Proof.
  intros Hwf%reachable_wf Haw Hcode Hjob. exists (Rejected err).
  split; [by eapply resume_rejects|].
  unfold post_users_settled. by rewrite decide_True.
Qed.

(** X12. When the INSERT of a batch succeeds, [POST /api/users] answers 201 to
    the request of the n-th create with the n-th row as data; when fewer
    rows than creates come back, the creates past the last row are
    answered 201 with no data. *)
Theorem post_users_created rt fr rows n job m :
  reachable rt →
  awaiting rt = Some fr →
  creates fr !! n = Some job →
  ∃ st, promises (resume (Returned rows) rt) !! promise job = Some st ∧
        post_users_settled st m = Some (json 201 (data (rows !! n)), m) ∧
        ((length rows ≤ n)%nat →
         post_users_settled st m = Some (json 201 (data None), m)).
Proof.
  intros Hwf%reachable_wf Haw Hn. exists (Fulfilled (rows !! n)).
  split; [by eapply resume_fulfils|]. split; [done|].
  intros Hlen. simpl. by rewrite (lookup_ge_None_2 rows n Hlen).
Qed.

Section ReadUser.

Context {E : Type} (clock : E → Z).
Context (query : Pool → string → list Z → E → completion (list User) * E).

(** For a negative odd id the closure of [GET /api/users/:id] counts a
    query and throws a [TypeError] without sending one. *)
Lemma get_user_fn_unrouted id (w : Metrics * E) :
  id < 0 → Z.odd id = true →
  get_user_fn query id w = (Threw query_of_undefined, (dbQueries_incr w.1, w.2)).
Proof.
  intros Hneg Hodd. unfold get_user_fn.
  by rewrite DbProps.getReadShard_unrouted.
Qed.

(** [onFailure] on a breaker given by its fields. *)
Lemma onFailure_fields nm th tm sth st f sc l (w : Metrics * E) tr :
  let b := mkCircuitBreaker nm th tm sth st f sc l in
  (onFailure (λ w : Metrics * E, clock w.2) (mkSys b w tr)).2
  = mkSys (mkCircuitBreaker nm th tm sth
             (if opens b then OPEN else st) (f + 1)
             (if opens b then 0 else sc) (clock w.2))
      w (tr ++ (if opens b
                then [logger_error ("Circuit " +:+ nm +:+ ": OPEN — failing fast");
                      emit "open"]
                else [])).
Proof.
  unfold opens. run_methods.
  destruct (bool_decide (th ≤ f + 1) || bool_decide (st = HALF_OPEN)); simpl;
    [by rewrite <- app_assoc|by rewrite app_nil_r].
Qed.

(** X10. For a negative odd id, a call of [dbCircuit.execute] with the
    closure of [GET /api/users/:id], which the handler makes on a cache
    miss, counts a query in the metrics and is rejected with the
    [TypeError] of reading [query] of [undefined], without a query being
    sent.  Three such calls in a row on the new [dbCircuit], at whatever
    times and in whatever worlds, leave it Open with the time of the third
    as the time of the last failure; and every call of [dbCircuit.execute]
    without a fallback that is made no later than 20000 ms after that time
    is rejected with the open-circuit error, its closure not being
    called. *)
Theorem unrouted_id_opens_dbCircuit (id : Z) (w1 w2 w3 : Metrics * E) :
  id < 0 → Z.odd id = true →
  let Date_now := λ w : Metrics * E, clock w.2 in
  let call b w := execute Date_now (get_user_fn query id) None (mkSys b w []) in
  let o1 := call dbCircuit w1 in
  let o2 := call (Breaker.this o1.2) w2 in
  let o3 := call (Breaker.this o2.2) w3 in
  (o1.1 = Threw query_of_undefined ∧ world o1.2 = (dbQueries_incr w1.1, w1.2)) ∧
  (o2.1 = Threw query_of_undefined ∧ world o2.2 = (dbQueries_incr w2.1, w2.2)) ∧
  (o3.1 = Threw query_of_undefined ∧ world o3.2 = (dbQueries_incr w3.1, w3.2)) ∧
  state (Breaker.this o1.2) = CLOSED ∧
  state (Breaker.this o2.2) = CLOSED ∧
  Breaker.this o3.2 = mkCircuitBreaker "postgres" 3 20000 2 OPEN 3 0 (clock w3.2) ∧
  ∀ (T' : Type) (fn : Metrics * E → completion T' * (Metrics * E))
    (w4 : Metrics * E) (tr : list effect),
    clock w4.2 - clock w3.2 ≤ 20000 →
    execute Date_now fn None (mkSys (Breaker.this o3.2) w4 tr)
    = (Threw (new_Error "Circuit postgres is OPEN"), mkSys (Breaker.this o3.2) w4 tr).
Proof.
  intros Hneg Hodd Date_now call o1 o2 o3.
  assert (∀ b w, state b ≠ OPEN →
            call b w
            = (Threw query_of_undefined,
               (onFailure Date_now (mkSys b (dbQueries_incr w.1, w.2) [call_fn])).2))
    as Hcall.
  { intros b w Hst. unfold call. rewrite execute_not_open by done.
    by rewrite (attempt_threw_eq Date_now (get_user_fn query id) None (mkSys b w [])
                  query_of_undefined (dbQueries_incr w.1, w.2)
                  (get_user_fn_unrouted id w Hneg Hodd)). }
  assert (o1 = (Threw query_of_undefined,
                mkSys (mkCircuitBreaker "postgres" 3 20000 2 CLOSED 1 0 (clock w1.2))
                  (dbQueries_incr w1.1, w1.2) [call_fn])) as H1.
  { unfold o1. rewrite Hcall by done. unfold dbCircuit, new_CircuitBreaker. simpl default.
    subst Date_now. by rewrite onFailure_fields. }
  assert (o2 = (Threw query_of_undefined,
                mkSys (mkCircuitBreaker "postgres" 3 20000 2 CLOSED 2 0 (clock w2.2))
                  (dbQueries_incr w2.1, w2.2) [call_fn])) as H2.
  { unfold o2. rewrite H1. cbn [snd Breaker.this]. rewrite Hcall by done.
    subst Date_now. by rewrite onFailure_fields. }
  assert (o3 = (Threw query_of_undefined,
                mkSys (mkCircuitBreaker "postgres" 3 20000 2 OPEN 3 0 (clock w3.2))
                  (dbQueries_incr w3.1, w3.2)
                  [call_fn; logger_error "Circuit postgres: OPEN — failing fast";
                   emit "open"])) as H3.
  { unfold o3. rewrite H2. cbn [snd Breaker.this]. rewrite Hcall by done.
    subst Date_now. by rewrite onFailure_fields. }
  rewrite H1, H2, H3. cbn [fst snd Breaker.this world state].
  repeat (split; [done|]).
  intros T' fn w4 tr Hle.
  rewrite execute_within_eq; [done|done|]. subst Date_now. simpl. lia.
Qed.

End ReadUser.

Lemma post_users_conflict_for_whole_batch_witness :
  reachable three_in_flight ∧
  awaiting three_in_flight = Some three_frame ∧
  err_code unique_violation = Some "23505" ∧
  mkWriteJob create alice 1 0 ∈ batch three_frame ∧
  ∃ st, promises (resume (Threw unique_violation) three_in_flight) !! 0%nat = Some st ∧
        post_users_settled st metrics
        = Some (json 409 (error "Email taken"), mkMetrics 0 0 0 0 1).
Proof.
  assert (reachable three_in_flight) as Hreach by (by eexists).
  assert (mkWriteJob create alice 1 0 ∈ batch three_frame) as Hin by (simpl; left).
  split; [exact Hreach|]. split; [reflexivity|]. split; [reflexivity|].
  split; [exact Hin|].
  exact (post_users_conflict_for_whole_batch three_in_flight three_frame unique_violation
           (mkWriteJob create alice 1 0) metrics Hreach eq_refl eq_refl Hin).
Defined.

Lemma post_users_created_witness :
  reachable three_in_flight ∧
  awaiting three_in_flight = Some three_frame ∧
  creates three_frame !! 1%nat = Some (mkWriteJob create alice 3 2) ∧
  ∃ st, promises (resume (Returned [alice_row]) three_in_flight) !! 2%nat = Some st ∧
        post_users_settled st metrics = Some (json 201 (data None), metrics).
Proof.
  assert (reachable three_in_flight) as Hreach by (by eexists).
  split; [exact Hreach|]. split; [reflexivity|]. split; [reflexivity|].
  destruct (post_users_created three_in_flight three_frame [alice_row] 1
              (mkWriteJob create alice 3 2) metrics Hreach eq_refl eq_refl)
    as (st & Hst & _ & Hnone).
  exists st. split; [exact Hst|]. apply Hnone. simpl. lia.
Defined.

Lemma unrouted_id_opens_dbCircuit_witness :
  let Date_now := λ w : Metrics * Z, w.2 in
  let query (pool : Pool) (text : string) (values : list Z) (e : Z)
    : completion (list User) * Z := (Returned [], e + 3) in
  let call b w := execute Date_now (get_user_fn query (-1)) None (mkSys b w []) in
  -1 < 0 ∧ Z.odd (-1) = true ∧
  (call dbCircuit (metrics, 0)).1 = Threw query_of_undefined ∧
  state (Breaker.this
           (call (Breaker.this (call (Breaker.this (call dbCircuit (metrics, 0)).2)
                                  (metrics, 700)).2)
              (metrics, 1500)).2) = OPEN.
Proof.
  intros Date_now query call.
  assert (-1 < 0) as Hneg by lia.
  split; [exact Hneg|]. split; [reflexivity|].
  destruct (unrouted_id_opens_dbCircuit (λ e : Z, e) query (-1)
              (metrics, 0) (metrics, 700) (metrics, 1500) Hneg eq_refl)
    as ((Herr & _) & _ & _ & _ & _ & Hopen & _).
  split; [exact Herr|]. unfold call, Date_now. by rewrite Hopen.
Defined.

End RoutesProps.
